(* ===================================================================== *)
(*  FisInMa: Fisher-information scoring of ODE experiment designs.        *)
(*                                                                       *)
(*  A shallow embedding of                                                *)
(*     src/solving.py            get_S_matrix, fischer_determinant,       *)
(*                               fischer_sumeigenval, fischer_mineigenval,*)
(*                               calculate_fischer_observable             *)
(*     FisInMa/plotting/plotting.py                                       *)
(*                               plot_all_sensitivities2, and the         *)
(*                               augmented initial state and the call of  *)
(*                               the integrator it shares with            *)
(*                               plot_all_sensitivities                   *)
(*  together with the part of numpy these functions rely on: arrays as a  *)
(*  shape and a row-major buffer, indexing, broadcasting assignments,     *)
(*  reshape, itertools.product, and the exceptions they raise.            *)
(* ===================================================================== *)

From HB Require Import structures.
From mathcomp Require Import ssreflect ssrfun ssrbool eqtype ssrnat seq div.
From mathcomp Require Import choice fintype bigop.
From mathcomp Require Import order ssralg ssrnum ssrint rat poly matrix.
From mathcomp Require Import mxalgebra mxpoly sesquilinear spectral algC.
From Stdlib Require Import Lia PrimFloat.

Set Implicit Arguments.
Unset Strict Implicit.
Unset Printing Implicit Defensive.

(* --------------------------------------------------------------------- *)
(*  Python exceptions and the error monad                                 *)
(* --------------------------------------------------------------------- *)

(* The exceptions the modelled code can raise. *)
Inductive exn : Type :=
  | ValueError          (* shapes that cannot be broadcast or reshaped *)
  | IndexError          (* an index out of bounds, too many indices *)
  | LinAlgError         (* numpy.linalg: singular or non-square matrix *)
  | TypeError           (* calling an object that is not callable *)
  | UnboundLocalError.  (* reading a local variable never assigned *)

Inductive result (A : Type) : Type :=
  | Ok of A
  | Raise of exn.

Arguments Ok {A} _.
Arguments Raise {A} _.

Definition bind {A B : Type} (c : result A) (k : A -> result B) : result B :=
  match c with
  | Ok a => k a
  | Raise e => Raise e
  end.

Notation "'let!' x ':=' c 'in' k" := (bind c (fun x => k))
  (at level 200, x pattern, c at level 100, k at level 200,
   format "'[v' 'let!'  x  ':='  c  'in' '/' k ']'").

Lemma bind_Ok {A B : Type} (a : A) (k : A -> result B) : bind (Ok a) k = k a.
Proof. by []. Qed.

Definition raises {A : Type} (c : result A) : bool :=
  if c is Raise _ then true else false.

(* --------------------------------------------------------------------- *)
(*  Arithmetic glue: ssrnat statements handed to lia / nia                *)
(* --------------------------------------------------------------------- *)

Ltac to_coq_nat :=
  repeat match goal with
  | H : is_true (_ < _) |- _ => move/ltP in H
  | H : is_true (_ <= _) |- _ => move/leP in H
  | H : is_true (_ == _ :> nat) |- _ => move/eqP in H
  | H : (_ < _) = false |- _ => move/negbT in H; rewrite -leqNgt in H
  | H : (_ <= _) = false |- _ => move/negbT in H; rewrite -ltnNge in H
  end;
  try (apply/ltP); try (apply/leP); try (apply/eqP);
  rewrite -?plusE -?multE -?minusE.

Ltac ssr_lia := to_coq_nat; lia.
Ltac ssr_nia := to_coq_nat; nia.

(* --------------------------------------------------------------------- *)
(*  Row-major index arithmetic                                            *)
(* --------------------------------------------------------------------- *)

(* np.prod of a shape: the number of elements of an array of that shape. *)
Definition prod_shape (sh : seq nat) : nat := foldr muln 1 sh.

(* The offset of the multi-index ix in the row-major (C order) buffer of an
   array of shape sh. *)
Fixpoint ravel (sh ix : seq nat) : nat :=
  match sh, ix with
  | _ :: sh', i :: ix' => i * prod_shape sh' + ravel sh' ix'
  | _, _ => 0
  end.

(* The multi-index at offset n: np.unravel_index. *)
Fixpoint unravel (sh : seq nat) (n : nat) : seq nat :=
  if sh is _ :: sh' then
    n %/ prod_shape sh' :: unravel sh' (n %% prod_shape sh')
  else [::].

(* ix is a valid multi-index of an array of shape sh. *)
Fixpoint in_shape (sh ix : seq nat) : bool :=
  match sh, ix with
  | [::], [::] => true
  | k :: sh', i :: ix' => (i < k) && in_shape sh' ix'
  | _, _ => false
  end.

(* All multi-indices of a shape in row-major order: np.ndindex. *)
Definition ndindex (sh : seq nat) : seq (seq nat) :=
  [seq unravel sh n | n <- iota 0 (prod_shape sh)].

(* itertools.product over the ranges range(k), k in ks: nested loops, the
   loop over the last range innermost. *)
Fixpoint product (ks : seq nat) : seq (seq nat) :=
  if ks is k :: ks' then
    [seq i :: ix | i <- iota 0 k, ix <- product ks']
  else [:: [::]].

Lemma prod_shape_cons k sh : prod_shape (k :: sh) = k * prod_shape sh.
Proof. by []. Qed.

Lemma prod_shape_cat sh1 sh2 :
  prod_shape (sh1 ++ sh2) = prod_shape sh1 * prod_shape sh2.
Proof.
by elim: sh1 => [|k sh1 IH] /=; rewrite ?mul1n // IH mulnA.
Qed.

Lemma in_shape_size sh ix : in_shape sh ix -> size ix = size sh.
Proof.
elim: sh ix => [|k sh IH] [|i ix] //= /andP [_ H].
by rewrite (IH _ H).
Qed.

Lemma in_shape1 a ix :
  in_shape [:: a] ix -> exists2 i, ix = [:: i] & i < a.
Proof.
by case: ix => [|i [|? ?]] //=; rewrite ?andbF ?andbT // => Hi; exists i.
Qed.

Lemma in_shape2 a b ix :
  in_shape [:: a; b] ix -> exists i j, [/\ ix = [:: i; j], i < a & j < b].
Proof.
case: ix => [|i [|j [|? ?]]] //=; rewrite ?andbF ?andbT // => /andP [Hi Hj].
by exists i, j.
Qed.

Lemma in_shape3 a b c ix :
  in_shape [:: a; b; c] ix ->
  exists i j l, [/\ ix = [:: i; j; l], i < a, j < b & l < c].
Proof.
case: ix => [|i [|j [|l [|? ?]]]] //=; rewrite ?andbF ?andbT //.
by case/and3P=> Hi Hj Hl; exists i, j, l.
Qed.

Lemma ravel_lt sh ix : in_shape sh ix -> ravel sh ix < prod_shape sh.
Proof.
elim: sh ix => [|k sh IH] [|i ix] //= /andP [Hi /IH Hr].
ssr_nia.
Qed.

Lemma unravelK sh ix : in_shape sh ix -> unravel sh (ravel sh ix) = ix.
Proof.
elim: sh ix => [|k sh IH] [|i ix] //= /andP [Hi Hix].
have Hr := ravel_lt Hix.
have Hp : 0 < prod_shape sh by apply: leq_ltn_trans Hr.
by rewrite divnMDl // (divn_small Hr) addn0 modnMDl (modn_small Hr) (IH _ Hix).
Qed.

Lemma in_shape_unravel sh n : n < prod_shape sh -> in_shape sh (unravel sh n).
Proof.
elim: sh n => [|k sh IH] n //= Hn.
have Hp : 0 < prod_shape sh.
  by case: (prod_shape sh) Hn => //; rewrite muln0.
by rewrite ltn_divLR // Hn IH // ltn_mod.
Qed.

Lemma ravelK sh n : n < prod_shape sh -> ravel sh (unravel sh n) = n.
Proof.
elim: sh n => [|k sh IH] n /=; first by rewrite ltnS leqn0 => /eqP.
move=> Hn.
have Hp : 0 < prod_shape sh.
  by case: (prod_shape sh) Hn => //; rewrite muln0.
by rewrite IH ?ltn_mod // -divn_eq.
Qed.

Lemma size_ndindex sh : size (ndindex sh) = prod_shape sh.
Proof. by rewrite /ndindex size_map size_iota. Qed.

Lemma nth_ndindex sh n :
  n < prod_shape sh -> nth [::] (ndindex sh) n = unravel sh n.
Proof.
by move=> Hn; rewrite /ndindex (nth_map 0) ?size_iota // nth_iota.
Qed.

Lemma mem_ndindex sh ix : (ix \in ndindex sh) = in_shape sh ix.
Proof.
apply/mapP/idP => [[n]|Hix].
  by rewrite mem_iota add0n /= => Hn ->; apply: in_shape_unravel.
exists (ravel sh ix); last by rewrite unravelK.
by rewrite mem_iota add0n /= ravel_lt.
Qed.

Lemma ndindex_nil : ndindex [::] = [:: [::]].
Proof. by []. Qed.

Lemma ndindex_cons k sh :
  ndindex (k :: sh) = [seq i :: ix | i <- iota 0 k, ix <- ndindex sh].
Proof.
rewrite /ndindex /=; set P := prod_shape sh.
elim: k => [|k IH]; first by rewrite mul0n.
rewrite mulSn addnC iotaD map_cat IH -addn1 iotaD allpairs_cat add0n.
congr (_ ++ _); rewrite /= cats0.
have -> : iota (k * P) P = [seq k * P + m | m <- iota 0 P].
  by rewrite -iotaDl addn0.
rewrite -!map_comp; apply/eq_in_map => m; rewrite mem_iota add0n /= => Hm.
have HP : 0 < P by apply: leq_ltn_trans Hm.
by rewrite divnMDl // divn_small // addn0 modnMDl modn_small.
Qed.

(* itertools.product enumerates the index tuples in row-major order. *)
Lemma product_ndindex ks : product ks = ndindex ks.
Proof. by elim: ks => [|k ks IH] //=; rewrite ndindex_cons IH. Qed.

Lemma size_product ks : size (product ks) = prod_shape ks.
Proof. by rewrite product_ndindex size_ndindex. Qed.

Lemma product1 k : product [:: k] = [seq [:: i] | i <- iota 0 k].
Proof.
rewrite /=; elim: (iota 0 k) => [|i s IH] //=.
by rewrite IH.
Qed.

(** X1: itertools.product over ranges enumerates the index tuples in
    row-major (lexicographic) order, the last index varying fastest: the
    n-th tuple holds the mixed-radix digits of n, and there are k1*...*km
    tuples. *)
Theorem product_row_major ks :
  product ks = [seq unravel ks n | n <- iota 0 (prod_shape ks)] /\
  size (product ks) = prod_shape ks.
Proof. by rewrite product_ndindex size_ndindex. Qed.

(* --------------------------------------------------------------------- *)
(*  numpy arrays                                                          *)
(* --------------------------------------------------------------------- *)

Section NdArray.

Variable T : Type.

(* The element read where a buffer is too short; the arrays of the modelled
   code are well formed and never read it. *)
Variable zero : T.

(* An ndarray: its shape and its elements in row-major (C) order. *)
Record ndarray : Type := NdArray { shape : seq nat; data : seq T }.

Definition well_formed (A : ndarray) : bool :=
  size (data A) == prod_shape (shape A).

Definition ndim (A : ndarray) : nat := size (shape A).

(* A[i1, ..., in], every axis indexed by an integer. *)
Definition item (A : ndarray) (ix : seq nat) : T :=
  nth zero (data A) (ravel (shape A) ix).

(* The array of shape sh whose element at ix is f ix. *)
Definition tabulate (sh : seq nat) (f : seq nat -> T) : ndarray :=
  NdArray sh [seq f ix | ix <- ndindex sh].

(* np.zeros(sh) *)
Definition np_zeros (sh : seq nat) : ndarray :=
  NdArray sh (nseq (prod_shape sh) zero).

(* np.array(xs) of a flat list: a 1-D array. *)
Definition np_array1 (xs : seq T) : ndarray := NdArray [:: size xs] xs.

(* A.reshape(sh): the same buffer under another shape of the same size. *)
Definition reshape (A : ndarray) (sh : seq nat) : result ndarray :=
  if prod_shape sh == size (data A) then Ok (NdArray sh (data A))
  else Raise ValueError.

(* A.reshape(sh + (-1,)): the last dimension is inferred. *)
Definition reshape_infer (A : ndarray) (sh : seq nat) : result ndarray :=
  let p := prod_shape sh in
  if (0 < p) && (p %| size (data A)) then
    Ok (NdArray (rcons sh (size (data A) %/ p)) (data A))
  else Raise ValueError.

(* A[i1, ..., ij] with j <= ndim A integers: the sub-array at that prefix. *)
Definition getitem_prefix (A : ndarray) (ix : seq nat) : result ndarray :=
  if (size ix <= ndim A) && in_shape (take (size ix) (shape A)) ix then
    Ok (tabulate (drop (size ix) (shape A)) (fun jx => item A (ix ++ jx)))
  else Raise IndexError.

(* A[1:]: all but the first entry along axis 0. *)
Definition drop_first (A : ndarray) : result ndarray :=
  if shape A is a :: rest then
    Ok (tabulate (a.-1 :: rest) (fun ix => item A ((head 0 ix).+1 :: behead ix)))
  else Raise IndexError.

(* A[:, 1:]: all but the first entry along axis 1. *)
Definition drop_first_col (A : ndarray) : result ndarray :=
  if shape A is a :: b :: rest then
    Ok (tabulate (a :: b.-1 :: rest)
          (fun ix => item A (nth 0 ix 0 :: (nth 0 ix 1).+1 :: drop 2 ix)))
  else Raise IndexError.

(* A[:n]: the first n entries along axis 0 (n clipped to the length). *)
Definition take_first (n : nat) (A : ndarray) : result ndarray :=
  if shape A is a :: rest then
    Ok (tabulate (minn n a :: rest) (fun ix => item A ix))
  else Raise IndexError.

(* A[n:]: the entries from n on along axis 0. *)
Definition drop_firstn (n : nat) (A : ndarray) : result ndarray :=
  if shape A is a :: rest then
    Ok (tabulate (a - n :: rest)
          (fun ix => item A (n + head 0 ix :: behead ix)))
  else Raise IndexError.

(* A.T: the axes reversed. *)
Definition transpose (A : ndarray) : ndarray :=
  tabulate (rev (shape A)) (fun ix => item A (rev ix)).

(* np.swapaxes(A, i, j) *)
Definition swap_at (i j : nat) (s : seq nat) : seq nat :=
  set_nth 0 (set_nth 0 s i (nth 0 s j)) j (nth 0 s i).

Definition swapaxes (A : ndarray) (i j : nat) : result ndarray :=
  if (i < ndim A) && (j < ndim A) then
    Ok (tabulate (swap_at i j (shape A)) (fun ix => item A (swap_at i j ix)))
  else Raise ValueError.

(* Element-wise map: A * c, A ** 2, ... *)
Definition map_array (f : T -> T) (A : ndarray) : ndarray :=
  NdArray (shape A) [seq f x | x <- data A].

(* numpy broadcasting of a value of shape vsh against a target of shape
   tsh: shapes are aligned at their last axes, and an axis of the value
   fits when it has the target's length or length 1.  (An assignment also
   accepts a value with additional leading axes of length 1; the modelled
   code never assigns one: its values have at most as many axes as their
   targets.) *)
Definition broadcastable (vsh tsh : seq nat) : bool :=
  (size vsh <= size tsh) &&
  all2 (fun v t => (v == t) || (v == 1)) vsh (drop (size tsh - size vsh) tsh).

(* The index of the value read for the target index ix. *)
Definition bcast_index (vsh ix : seq nat) : seq nat :=
  [seq if vi.1 == 1 then 0 else vi.2
     | vi <- zip vsh (drop (size ix - size vsh) ix)].

Definition broadcast_to (V : ndarray) (tsh : seq nat) : result ndarray :=
  if broadcastable (shape V) tsh then
    Ok (tabulate tsh (fun ix => item V (bcast_index (shape V) ix)))
  else Raise ValueError.

(* A[(slice(None), slice(None)) + index] = V: the integers of index fix
   every axis after the first two; V is broadcast to the two free axes. *)
Definition setitem_slice2 (A : ndarray) (index : seq nat) (V : ndarray)
  : result ndarray :=
  if shape A is a :: b :: rest then
    if in_shape rest index then
      let! V' := broadcast_to V [:: a; b] in
      Ok (tabulate (shape A) (fun ix =>
            if drop 2 ix == index then item V' (take 2 ix) else item A ix))
    else Raise IndexError
  else Raise IndexError.

(* The position of the last occurrence of i in s. *)
Definition find_last (i : nat) (s : seq nat) : option nat :=
  let j := index i (rev s) in
  if j < size s then Some (size s - j.+1) else None.

(* A[:, index] = V where index is a SEQUENCE of integers: numpy reads a
   sequence standing at one place of the subscript as an integer array
   (advanced indexing), so index selects entries along axis 1 only.  The
   selection has shape (a, len(index)) + A.shape[2:], V is broadcast to that
   shape, and where an entry of axis 1 is selected more than once the last
   assignment remains (numpy assigns in the order of the index array). *)
Definition setitem_take1 (A : ndarray) (index : seq nat) (V : ndarray)
  : result ndarray :=
  if shape A is a :: k :: rest then
    if all (fun i => i < k) index then
      let! V' := broadcast_to V (a :: size index :: rest) in
      Ok (tabulate (shape A) (fun ix =>
            if find_last (nth 0 ix 1) index is Some j then
              item V' (nth 0 ix 0 :: j :: drop 2 ix)
            else item A ix))
    else Raise IndexError
  else Raise IndexError.

(* np.concatenate([A, B], axis=0) *)
Definition concatenate0 (A B : ndarray) : result ndarray :=
  match shape A, shape B with
  | a :: ra, b :: rb =>
      if ra == rb then Ok (NdArray (a + b :: ra) (data A ++ data B))
      else Raise ValueError
  | _, _ => Raise ValueError
  end.

(* ------------------------------- lemmas ------------------------------ *)

Lemma size_tabulate sh f : size (data (tabulate sh f)) = prod_shape sh.
Proof. by rewrite /= size_map size_ndindex. Qed.

Lemma wf_tabulate sh f : well_formed (tabulate sh f).
Proof. by rewrite /well_formed size_tabulate. Qed.

Lemma wf_zeros sh : well_formed (np_zeros sh).
Proof. by rewrite /well_formed /= size_nseq. Qed.

Lemma item_tabulate sh f ix :
  in_shape sh ix -> item (tabulate sh f) ix = f ix.
Proof.
move=> Hix; have Hr := ravel_lt Hix.
rewrite /item /= (nth_map [::]) ?size_ndindex //.
by rewrite nth_ndindex // unravelK.
Qed.

Lemma item_map_array f (A : ndarray) ix :
  ravel (shape A) ix < size (data A) ->
  item (map_array f A) ix = f (item A ix).
Proof. by move=> H; rewrite /item /= (nth_map zero). Qed.

(* A 1-D buffer read as a column. *)
Lemma item_column n d t :
  item (NdArray [:: n; 1] d) [:: t; 0] = item (NdArray [:: n] d) [:: t].
Proof. by rewrite /item /= !muln1 !addn0. Qed.

Lemma nth_tabulate sh f n :
  n < prod_shape sh -> nth zero (data (tabulate sh f)) n = f (unravel sh n).
Proof.
by move=> Hn; rewrite /= (nth_map [::]) ?size_ndindex // nth_ndindex.
Qed.

Lemma item_zeros sh ix : item (np_zeros sh) ix = zero.
Proof. by rewrite /item /= nth_nseq; case: ifP. Qed.

(* Two well-formed arrays of one shape with the same elements are equal. *)
Lemma ndarray_ext (A B : ndarray) :
  well_formed A -> well_formed B -> shape A = shape B ->
  (forall ix, in_shape (shape A) ix -> item A ix = item B ix) -> A = B.
Proof.
case: A => shA dA; case: B => shB dB; rewrite /well_formed /item /=.
move=> /eqP HA /eqP HB Hsh; rewrite -{}Hsh in HB * => H.
congr NdArray; apply: (@eq_from_nth _ zero); first by rewrite HA HB.
move=> n; rewrite HA => Hn.
by rewrite -(ravelK Hn); apply: H; apply: in_shape_unravel.
Qed.

Lemma tabulate_ext sh f g :
  (forall ix, in_shape sh ix -> f ix = g ix) -> tabulate sh f = tabulate sh g.
Proof.
move=> H; rewrite /tabulate; congr NdArray.
by apply/eq_in_map => ix; rewrite mem_ndindex; apply: H.
Qed.

Lemma reshape_ok (A : ndarray) sh :
  well_formed A -> prod_shape sh = prod_shape (shape A) ->
  reshape A sh = Ok (NdArray sh (data A)).
Proof. by rewrite /well_formed /reshape => /eqP -> ->; rewrite eqxx. Qed.

End NdArray.

Arguments NdArray {T} _ _.
Arguments np_zeros {T} zero sh.
Arguments np_array1 {T} xs.
Arguments reshape {T} A sh.
Arguments reshape_infer {T} A sh.
Arguments map_array {T} f A.
Arguments concatenate0 {T} A B.
Arguments well_formed {T} A.
Arguments ndim {T} A.
Arguments tabulate {T} sh f.

(* Element-wise binary operations with numpy broadcasting. *)
Section Broadcast.

Variable T : Type.
Variable zero : T.

(* The common shape of two shapes, both given last axis first. *)
Fixpoint bshape_rev (s1 s2 : seq nat) : option (seq nat) :=
  match s1, s2 with
  | [::], _ => Some s2
  | _, [::] => Some s1
  | a :: s1', b :: s2' =>
      if (a == b) || (b == 1) then omap (cons a) (bshape_rev s1' s2')
      else if a == 1 then omap (cons b) (bshape_rev s1' s2')
      else None
  end.

(* np.broadcast_shapes *)
Definition broadcast_shapes (s1 s2 : seq nat) : option (seq nat) :=
  omap rev (bshape_rev (rev s1) (rev s2)).

(* A op B, element by element, on the common shape. *)
Definition np_binop (op : T -> T -> T) (A B : ndarray T) : result (ndarray T) :=
  if broadcast_shapes (shape A) (shape B) is Some sh then
    Ok (tabulate sh (fun ix =>
          op (item zero A (bcast_index (shape A) ix))
             (item zero B (bcast_index (shape B) ix))))
  else Raise ValueError.

(* A.dot(B) for 2-D arrays: the matrix product, with sums and products
   taken by add and mul. *)
Definition np_dot (add mul : T -> T -> T) (A B : ndarray T)
  : result (ndarray T) :=
  match shape A, shape B with
  | [:: n; l], [:: l'; m] =>
      if l == l' then
        Ok (tabulate [:: n; m] (fun ix =>
              foldr (fun j acc =>
                       add (mul (item zero A [:: nth 0 ix 0; j])
                                (item zero B [:: j; nth 0 ix 1])) acc)
                    zero (iota 0 l)))
      else Raise ValueError
  | _, _ => Raise ValueError
  end.

Lemma bcast_index_id sh ix : in_shape sh ix -> bcast_index sh ix = ix.
Proof.
rewrite /bcast_index => Hix; rewrite (in_shape_size Hix) subnn drop0.
elim: sh ix Hix => [|k sh IH] [|i ix] //= /andP [Hi Hix].
rewrite (IH _ Hix); case: eqP Hi => // ->.
by rewrite ltnS leqn0 => /eqP ->.
Qed.

Lemma broadcast_to_id (V : ndarray T) :
  well_formed V -> broadcast_to zero V (shape V) = Ok V.
Proof.
move=> HV; rewrite /broadcast_to /broadcastable leqnn subnn drop0 /=.
have -> : all2 (fun v t => (v == t) || (v == 1)) (shape V) (shape V).
  by elim: (shape V) => [|k sh IH] //=; rewrite eqxx IH.
congr Ok; apply: (@ndarray_ext _ zero) => //; first exact: wf_tabulate.
by move=> ix Hix; rewrite /= item_tabulate // bcast_index_id.
Qed.

End Broadcast.

Arguments np_binop {T} zero op A B.
Arguments np_dot {T} zero add mul A B.

(* --------------------------------------------------------------------- *)
(*  Loops in the error monad                                              *)
(* --------------------------------------------------------------------- *)

(* for x in s: a = f(a, x), stopping at the first exception. *)
Fixpoint foldM {A B : Type} (f : A -> B -> result A) (a : A) (s : seq B)
  : result A :=
  if s is x :: s' then let! a' := f a x in foldM f a' s' else Ok a.

(* [f(x) for x in s], stopping at the first exception. *)
Fixpoint mapM {A B : Type} (f : A -> result B) (s : seq A) : result (seq B) :=
  if s is x :: s' then
    let! y := f x in let! ys := mapM f s' in Ok (y :: ys)
  else Ok [::].

Lemma foldM_cons {A B : Type} (f : A -> B -> result A) a x s :
  foldM f a (x :: s) = (let! a' := f a x in foldM f a' s).
Proof. by []. Qed.

Lemma foldM_cat {A B : Type} (f : A -> B -> result A) a s1 s2 :
  foldM f a (s1 ++ s2) = (let! a' := foldM f a s1 in foldM f a' s2).
Proof. by elim: s1 a => [|x s1 IH] a //=; case: (f a x) => //=. Qed.

Lemma size_mapM {A B : Type} (f : A -> result B) s l :
  mapM f s = Ok l -> size l = size s.
Proof.
elim: s l => [|x s IH] l /=; first by case=> <-.
case: (f x) => [y|] //=; case E: (mapM f s) => [ys|] //= -[<-] /=.
by rewrite (IH _ E).
Qed.

(* A loop over range(j, j + d) that steps an invariant. *)
Lemma foldM_iota {A : Type} (f : A -> nat -> result A) (inv : nat -> A) j d :
  (forall i, j <= i < j + d -> f (inv i) i = Ok (inv i.+1)) ->
  foldM f (inv j) (iota j d) = Ok (inv (j + d)).
Proof.
elim: d j => [|d IH] j H; first by rewrite addn0.
have Hj : f (inv j) j = Ok (inv j.+1).
  by apply: H; rewrite leqnn addnS ltnS leq_addr.
rewrite /= Hj /= addnS -addSn; apply: IH => i /andP [Hi1 Hi2].
by apply: H; rewrite (ltnW Hi1) /= addnS -addSn.
Qed.

Lemma foldM_map {A B C : Type} (f : A -> B -> result A) (g : C -> B) a s :
  foldM f a (map g s) = foldM (fun a x => f a (g x)) a s.
Proof. by elim: s a => [|x s IH] a //=; case: (f a (g x)). Qed.

(* --------------------------------------------------------------------- *)
(*  src/solving.py                                                        *)
(* --------------------------------------------------------------------- *)

Import GRing.Theory Num.Theory.
Local Open Scope ring_scope.

Section Solving.

(* Python floats, modelled by the numbers of a field of characteristic 0:
   arithmetic is exact.  *)
Variable F : numFieldType.

(* The value a criterion returns. *)
Variable V : Type.

Notation array := (ndarray F).

(* The right-hand side and the Jacobian handed to the integrator:
   f(y, t, Q, P, Const). *)
Definition ode_callable : Type :=
  seq F -> F -> seq F -> seq F -> seq F -> seq F.

(* The fields of FischerModel (src.data_structures) the module reads.
   times has shape (k1, ..., km, n_t): one row of n_t measurement times for
   every combination of the m inputs; q_values holds the m input grids. *)
Record FischerData : Type := {
  y0_t0 : seq F * F;
  parameters : seq F;
  constants : seq F;
  times : array;
  q_values : seq (seq F);
  ode_func : ode_callable;
  jacobian : ode_callable
}.

(* A FischerModel: the data and the criterion fsm.observable, a callable
   applied to (fsm, S, C). *)
Record FischerModel : Type := {
  fdata :> FischerData;
  observable : FischerData -> array -> array -> result V
}.

(* scipy.integrate.odeint(func, y0, t, args, Dfun): the states at the times
   t, one row per time. *)
Variable odeint :
  ode_callable -> seq F -> seq F -> seq F * seq F * seq F -> ode_callable ->
  array.

(* 0.25 *)
Definition quarter : F := 4%:R^-1.

(* np.eye(n, m) *)
Definition np_eye (n m : nat) : array :=
  tabulate [:: n; m] (fun ix => (nth 0%N ix 0 == nth 0%N ix 1)%:R).

(* A 2-D array as a matrix, and back. *)
Definition mx_of (n m : nat) (A : array) : 'M[F]_(n, m) :=
  \matrix_(i, j) item 0 A [:: (i : nat); (j : nat)].

Definition of_mx (n m : nat) (M : 'M[F]_(n, m)) : array :=
  tabulate [:: n; m] (fun ix =>
    match insub (nth 0%N ix 0), insub (nth 0%N ix 1) with
    | Some i, Some j => M i j
    | _, _ => 0
    end).

(* np.linalg.inv(A): the inverse of a square matrix; LinAlgError when A is
   not square or is singular. *)
Definition np_linalg_inv (A : array) : result array :=
  if shape A is [:: n; m] then
    if (n == m) && (mx_of n n A \in unitmx) then
      Ok (of_mx (invmx (mx_of n n A)))
    else Raise LinAlgError
  else Raise LinAlgError.

(* The state of the loop of get_S_matrix: S, error_n and solutions. *)
Definition loop_state : Type :=
  (array * array * seq (array * seq F * array))%type.

(* fsm.times[index], Q and the integrator's output for the combination
   index, when the indexing succeeds. *)
Definition times_at (fsm : FischerData) (index : seq nat) : array :=
  tabulate (drop (size index) (shape (times fsm)))
    (fun jx => item 0 (times fsm) (index ++ jx)).

Definition inputs_at (fsm : FischerData) (index : seq nat) : seq F :=
  [seq nth 0 (nth [::] (q_values fsm) ij.1) ij.2
  | ij <- zip (iota 0 (size index)) index].

Definition integrate_at (fsm : FischerData) (index : seq nat) : array :=
  odeint (ode_func fsm) (y0_t0 fsm).1
    ((y0_t0 fsm).2 :: data (times_at fsm index))
    (inputs_at fsm index, parameters fsm, constants fsm) (jacobian fsm).

(* One pass of the loop over the input combinations (lines 23-38). *)
Definition get_S_matrix_body (fsm : FischerData) (st : loop_state)
  (index : seq nat) : result loop_state :=
  let '(S_, error_n, solutions) := st in
  let y0 := (y0_t0 fsm).1 in
  let t0 := (y0_t0 fsm).2 in
  let n_t := last 0%N (shape (times fsm)) in
  let Q := inputs_at fsm index in
  let! t := getitem_prefix 0 (times fsm) index in
  let! r := drop_first_col 0 (transpose 0
              (odeint (ode_func fsm) y0 (t0 :: data t)
                 (Q, parameters fsm, constants fsm) (jacobian fsm))) in
  let! r_sens := drop_first 0 r in
  let! S' := setitem_slice2 0 S_ index r_sens in
  let! r0 := getitem_prefix 0 r [:: 0%N] in
  let! r0' := reshape r0 [:: n_t; 1%N] in
  let! error_n' :=
    setitem_take1 0 error_n index (map_array (fun x => x * quarter) r0') in
  Ok (S', error_n', rcons solutions (t, Q, r)).

(* get_S_matrix(fsm): the sensitivity matrix S, the inverse covariance C
   and the list of solutions (t, Q, r). *)
Definition get_S_matrix (fsm : FischerData)
  : result (array * array * seq (array * seq F * array)) :=
  if shape (times fsm) is [::] then Raise IndexError else
  let n_t := last 0%N (shape (times fsm)) in
  let ks := [seq size q | q <- q_values fsm] in
  let S_ := np_zeros 0 (size (parameters fsm) :: n_t :: ks) in
  let error_n := np_zeros 0 (n_t :: ks) in
  let! (S_, error_n, solutions) :=
    foldM (get_S_matrix_body fsm) (S_, error_n, [::]) (product ks) in
  let! S_ := reshape S_ [:: size (parameters fsm);
                            prod_shape (behead (shape S_))] in
  let! error_n := reshape error_n [:: prod_shape (shape error_n)] in
  let n := head 0%N (shape error_n) in
  let! cov_matrix :=
    np_binop 0 *%R (np_eye n n) (map_array (fun x => x ^+ 2) error_n) in
  let! C := np_linalg_inv cov_matrix in
  Ok (S_, C, solutions).

(* calculate_fischer_observable(fsm, covar) *)
Definition calculate_fischer_observable (fsm : FischerModel) (covar : bool)
  : result (V * FischerModel * array * array * seq (array * seq F * array)) :=
  let! (S_, C, r) := get_S_matrix fsm in
  let C := if covar == false then
             np_eye (nth 0%N (shape S_) 1) (nth 0%N (shape S_) 1)
           else C in
  let! obs := observable fsm fsm S_ C in
  Ok (obs, fsm, S_, C, r).


(* ------------------------- linear algebra lemmas --------------------- *)

Lemma zeros_tabulate sh : np_zeros 0 sh = tabulate sh (fun _ => 0 : F).
Proof.
rewrite /np_zeros /tabulate; congr NdArray.
by rewrite -size_ndindex; elim: (ndindex sh) => //= _ s ->.
Qed.

Lemma item_map_array0 (f : F -> F) (A : array) ix :
  f 0 = 0 -> item 0 (map_array f A) ix = f (item 0 A ix).
Proof.
move=> f0; rewrite /item /=; set n := ravel _ _.
case: (ltnP n (size (data A))) => Hn; first by rewrite (nth_map 0).
by rewrite !nth_default ?size_map.
Qed.

(* np.eye(n, n) * e for a vector e: the diagonal matrix of e. *)
Lemma eye_mul (e : array) n :
  shape e = [:: n] ->
  np_binop 0 *%R (np_eye n n) e =
  Ok (tabulate [:: n; n] (fun ix =>
        (nth 0%N ix 0 == nth 0%N ix 1)%:R * item 0 e [:: nth 0%N ix 1])).
Proof.
move=> He; rewrite /np_binop /broadcast_shapes He /= eqxx /=.
congr Ok; apply: tabulate_ext => ix /in_shape2 [i [j [-> Hi Hj]]].
rewrite (@bcast_index_id [:: n; n]) /= ?Hi ?Hj // item_tabulate /= ?Hi ?Hj //.
rewrite /bcast_index /=.
have -> : (if n == 1 then 0 else j)%N = j; last by [].
by case: eqP Hj => // ->; rewrite ltnS leqn0 => /eqP.
Qed.

(* A diagonal array as a matrix. *)
Lemma mx_of_diag n (d : nat -> F) :
  mx_of n n (tabulate [:: n; n] (fun ix =>
               (nth 0%N ix 0 == nth 0%N ix 1)%:R * d (nth 0%N ix 1))) =
  diag_mx (\row_(i < n) d i).
Proof.
apply/matrixP => i j; rewrite !mxE item_tabulate /= ?ltn_ord //.
rewrite -val_eqE /=.
by case: eqP => [->|_]; rewrite ?mul1r ?mul0r ?mulr1n ?mulr0n.
Qed.

Lemma of_mx_diag n (d : nat -> F) :
  of_mx (diag_mx (\row_(i < n) d i)) =
  tabulate [:: n; n] (fun ix =>
    (nth 0%N ix 0 == nth 0%N ix 1)%:R * d (nth 0%N ix 1)).
Proof.
apply: tabulate_ext => ix /in_shape2 [i [j [-> Hi Hj]]] /=.
rewrite !insubT !mxE /= -val_eqE /=.
by case: eqP => [->|_]; rewrite ?mul1r ?mul0r ?mulr1n ?mulr0n.
Qed.

Lemma unit_diag n (d : nat -> F) :
  (diag_mx (\row_(i < n) d i) \in unitmx) =
  all (fun i => d i != 0) (iota 0 n).
Proof.
rewrite unitmxE det_diag unitfE.
apply/prodf_neq0/allP => [H i|H i _].
  rewrite mem_iota add0n /= => Hi.
  by have := H (Ordinal Hi) isT; rewrite mxE.
by rewrite mxE; apply: H; rewrite mem_iota add0n /= ltn_ord.
Qed.

Lemma invmx_diag n (d : nat -> F) :
  all (fun i => d i != 0) (iota 0 n) ->
  invmx (diag_mx (\row_(i < n) d i)) = diag_mx (\row_(i < n) (d i)^-1).
Proof.
move=> Hd; have Hu : diag_mx (\row_(i < n) d i) \in unitmx by rewrite unit_diag.
set A := diag_mx _; set B := diag_mx _.
have AB : A *m B = 1%:M.
  rewrite /A /B mulmx_diag -diag_const_mx; congr diag_mx.
  apply/rowP => i; rewrite !mxE divff //.
  by move/allP: Hd; apply; rewrite mem_iota add0n /= ltn_ord.
by rewrite -[B]mul1mx -(mulVmx Hu) -mulmxA AB mulmx1.
Qed.

Lemma np_linalg_inv_square (A : array) n :
  shape A = [:: n; n] ->
  np_linalg_inv A =
  if mx_of n n A \in unitmx then Ok (of_mx (invmx (mx_of n n A)))
  else Raise LinAlgError.
Proof. by rewrite /np_linalg_inv => ->; rewrite eqxx. Qed.

(* np.linalg.inv of a diagonal matrix. *)
Lemma inv_diag n (d : nat -> F) :
  np_linalg_inv (tabulate [:: n; n] (fun ix =>
                   (nth 0%N ix 0 == nth 0%N ix 1)%:R * d (nth 0%N ix 1))) =
  if all (fun i => d i != 0) (iota 0 n) then
    Ok (tabulate [:: n; n] (fun ix =>
          (nth 0%N ix 0 == nth 0%N ix 1)%:R * (d (nth 0%N ix 1))^-1))
  else Raise LinAlgError.
Proof.
rewrite (@np_linalg_inv_square _ n) // mx_of_diag unit_diag.
case: ifP => // Hd.
by rewrite invmx_diag // (of_mx_diag n (fun i => (d i)^-1)).
Qed.

(* Lines 39-44 of get_S_matrix: once the loop has ended in the state
   (S, error_n, solutions), the result is decided by the zeros of error_n. *)
Lemma get_S_matrix_finish (fsm : FischerData) (S_ E : array) sols :
  shape (times fsm) <> [::] ->
  foldM (get_S_matrix_body fsm)
    (np_zeros 0 [:: size (parameters fsm), last 0%N (shape (times fsm))
                  & [seq size q | q <- q_values fsm]],
     np_zeros 0 (last 0%N (shape (times fsm))
                  :: [seq size q | q <- q_values fsm]), [::])
    (product [seq size q | q <- q_values fsm]) = Ok (S_, E, sols) ->
  well_formed S_ -> well_formed E ->
  prod_shape (shape S_) =
    (size (parameters fsm) * prod_shape (behead (shape S_)))%N ->
  get_S_matrix fsm =
  if all (fun i => nth 0 (data E) i != 0) (iota 0 (size (data E))) then
    Ok (NdArray [:: size (parameters fsm); prod_shape (behead (shape S_))]
          (data S_),
        tabulate [:: size (data E); size (data E)] (fun ix =>
          (nth 0%N ix 0 == nth 0%N ix 1)%:R *
          (nth 0 (data E) (nth 0%N ix 1) ^+ 2)^-1),
        sols)
  else Raise LinAlgError.
Proof.
move=> Ht Hloop /eqP HS /eqP HE HP; rewrite /get_S_matrix.
case Esh: (shape (times fsm)) Ht => [|a sh] // _.
rewrite -Esh Hloop bind_Ok /reshape /= !muln1 HS HE -HP !eqxx !bind_Ok.
rewrite [head _ _]/= eye_mul // bind_Ok.
set e2 := map_array _ _.
have He2 i : item 0 e2 [:: i] = nth 0 (data E) i ^+ 2.
  by rewrite item_map_array0 ?expr0n // /item /= muln1 addn0.
rewrite (inv_diag _ (fun i => item 0 e2 [:: i])).
have -> : all (fun i => item 0 e2 [:: i] != 0) (iota 0 (prod_shape (shape E))) =
          all (fun i => nth 0 (data E) i != 0) (iota 0 (prod_shape (shape E))).
  by apply: eq_all => i; rewrite He2 sqrf_eq0.
case: ifP => // _; rewrite bind_Ok; congr (Ok (_, _, _)).
by apply: tabulate_ext => ix _; rewrite He2.
Qed.

(* -------------------- the solutions, for any number of inputs -------- *)

(* What one pass of the loop appends to solutions: the times of the
   combination, its input values, and the integrator's output for them. *)
Definition solution_at (fsm : FischerData) (index : seq nat)
  : result (array * seq F * array) :=
  let! t := getitem_prefix 0 (times fsm) index in
  let! r := drop_first_col 0 (transpose 0
              (odeint (ode_func fsm) (y0_t0 fsm).1 ((y0_t0 fsm).2 :: data t)
                 (inputs_at fsm index, parameters fsm, constants fsm)
                 (jacobian fsm))) in
  Ok (t, inputs_at fsm index, r).

Lemma body_solution (fsm : FischerData) (st st' : loop_state) index :
  get_S_matrix_body fsm st index = Ok st' ->
  exists2 sol, solution_at fsm index = Ok sol & st'.2 = rcons st.2 sol.
Proof.
case: st => [[S_ E] sols]; rewrite /get_S_matrix_body /solution_at; cbv zeta.
case: (getitem_prefix _ _ _) => [t|] //; rewrite !bind_Ok.
case: (drop_first_col _ _) => [r|] //; rewrite !bind_Ok.
case: (drop_first _ _) => [?|] //; rewrite bind_Ok.
case: (setitem_slice2 _ _ _ _) => [?|] //; rewrite bind_Ok.
case: (getitem_prefix _ _ _) => [?|] //; rewrite bind_Ok.
case: (reshape _ _) => [?|] //; rewrite bind_Ok.
case: (setitem_take1 _ _ _ _) => [?|] //; rewrite bind_Ok => -[<-] /=.
by exists (t, inputs_at fsm index, r).
Qed.

Lemma loop_solutions (fsm : FischerData) (st st' : loop_state) s :
  foldM (get_S_matrix_body fsm) st s = Ok st' ->
  exists2 l, mapM (solution_at fsm) s = Ok l & st'.2 = st.2 ++ l.
Proof.
elim: s st => [|index s IH] st /=; first by case=> <-; exists [::]; rewrite ?cats0.
case E: (get_S_matrix_body fsm st index) => [st1|] //=.
have [sol -> Hsol] := body_solution E.
move=> /IH [l -> ->]; exists (sol :: l) => //.
by rewrite Hsol -cats1 -catA.
Qed.

(** X2: whenever get_S_matrix returns, its solutions are those of the
    input combinations in row-major order of their index tuples (the last
    index varying fastest), one (t, Q, r) per combination. *)
Theorem solutions_in_grid_order (fsm : FischerData) (S_ C : array) sols :
  get_S_matrix fsm = Ok (S_, C, sols) ->
  mapM (solution_at fsm) (ndindex [seq size q | q <- q_values fsm]) = Ok sols /\
  size sols = prod_shape [seq size q | q <- q_values fsm].
Proof.
rewrite /get_S_matrix; case: (shape (times fsm)) => [|a sh] //.
case E: (foldM _ _ _) => [[[S1 E1] sols1]|] //; rewrite bind_Ok.
case: (reshape _ _) => [?|] //; rewrite bind_Ok.
case: (reshape _ _) => [?|] //; rewrite bind_Ok.
case: (np_binop _ _ _ _) => [?|] //; rewrite bind_Ok.
case: (np_linalg_inv _) => [?|] //; rewrite bind_Ok => -[_ _ <-].
have [l Hl /= ->] := loop_solutions E.
rewrite -product_ndindex Hl; split=> //.
by rewrite (size_mapM Hl) size_product.
Qed.

(* The solution r = odeint(...).T[:, 1:] of one combination: state j at
   the t-th measurement time is the integrator's row t+1, column j. *)
Definition r_at (fsm : FischerData) (index : seq nat) : array :=
  tabulate [:: size (y0_t0 fsm).1; (size (data (times_at fsm index)))]
    (fun ix => item 0 (integrate_at fsm index)
                 [:: (nth 0%N ix 1).+1; nth 0%N ix 0]).

Section SingleInput.

(* scipy's contract: odeint returns an array of shape (len(t), len(y0)). *)
Hypothesis odeint_shape : forall f y0 t args J,
  shape (odeint f y0 t args J) = [:: size t; size y0].

Variable fsm : FischerData.
Variable q : seq F.
Variable n_t : nat.

Hypothesis Hq : q_values fsm = [:: q].
Hypothesis Htimes : shape (times fsm) = [:: size q; n_t].
Hypothesis Hy0 : size (y0_t0 fsm).1 = (size (parameters fsm)).+1.

Let n_p := size (parameters fsm).
Let k := size q.

Lemma times_at_shape c : shape (times_at fsm [:: c]) = [:: n_t].
Proof. by rewrite /times_at Htimes. Qed.

Lemma size_times_at c : size (data (times_at fsm [:: c])) = n_t.
Proof. by rewrite /times_at Htimes /= size_map size_ndindex /= muln1. Qed.

Lemma solve_step c :
  drop_first_col 0 (transpose 0 (integrate_at fsm [:: c])) =
  Ok (r_at fsm [:: c]).
Proof.
rewrite /drop_first_col /transpose /= odeint_shape /= size_times_at.
congr Ok; rewrite /r_at size_times_at Hy0; apply: tabulate_ext.
move=> ix /in_shape2 [j [t [-> Hj Ht]]] /=.
by rewrite item_tabulate //= Hj ltnS Ht.
Qed.

Lemma times_at_ok c : (c < k)%N ->
  getitem_prefix 0 (times fsm) [:: c] = Ok (times_at fsm [:: c]).
Proof.
by move=> Hc; rewrite /getitem_prefix /times_at /ndim Htimes /= Hc.
Qed.

(* The loop state after the combinations 0 .. j-1. *)
Definition S_upto (j : nat) : array :=
  tabulate [:: n_p; n_t; k] (fun ix =>
    if (nth 0 ix 2 < j)%N then
      item 0 (r_at fsm [:: nth 0%N ix 2]) [:: (nth 0%N ix 0).+1; nth 0%N ix 1]
    else 0).

Definition error_upto (j : nat) : array :=
  tabulate [:: n_t; k] (fun ix =>
    if (nth 0 ix 1 < j)%N then
      item 0 (r_at fsm [:: nth 0%N ix 1]) [:: 0%N; nth 0%N ix 0] * quarter
    else 0).

Definition solutions_upto (j : nat) : seq (array * seq F * array) :=
  [seq (times_at fsm [:: c], inputs_at fsm [:: c], r_at fsm [:: c])
  | c <- iota 0 j].

Lemma shape_r_at c : shape (r_at fsm [:: c]) = [:: n_p.+1; n_t].
Proof. by rewrite /r_at /= size_times_at Hy0. Qed.

Lemma S_step j : (j < k)%N ->
  (let! r_sens := drop_first 0 (r_at fsm [:: j]) in
   setitem_slice2 0 (S_upto j) [:: j] r_sens) = Ok (S_upto j.+1).
Proof.
move=> Hj; rewrite /drop_first shape_r_at /= /setitem_slice2 /= Hj /=.
rewrite /broadcast_to /broadcastable /= !eqxx /=.
congr Ok; apply: tabulate_ext => ix /in_shape3 [p [t [c [-> Hp Ht Hc]]]] /=.
rewrite ltnS leq_eqVlt eqseq_cons eqxx andbT.
case: (c =P j) => [->|_] /=; last by rewrite item_tabulate //= Hp Ht Hc.
rewrite item_tabulate /= ?Hp ?Ht // (@bcast_index_id [:: n_p; n_t]) /= ?Hp ?Ht //.
by rewrite item_tabulate //= Hp Ht.
Qed.

Lemma find_last1 c j :
  find_last c [:: j] = if c == j then Some 0%N else None.
Proof. by rewrite /find_last /= eq_sym; case: eqP. Qed.

Lemma error_step j : (j < k)%N ->
  (let! r0 := getitem_prefix 0 (r_at fsm [:: j]) [:: 0%N] in
   let! r0' := reshape r0 [:: n_t; 1%N] in
   setitem_take1 0 (error_upto j) [:: j]
     (map_array (fun x => x * quarter) r0')) = Ok (error_upto j.+1).
Proof.
move=> Hj; rewrite /getitem_prefix /ndim shape_r_at /=.
rewrite /reshape /= size_map size_ndindex /= !muln1 eqxx /=.
rewrite /setitem_take1 /= Hj /= /broadcast_to /broadcastable /= !eqxx /=.
congr Ok; apply: tabulate_ext => ix /in_shape2 [t [c [-> Ht Hc]]] /=.
rewrite find_last1 ltnS leq_eqVlt.
case: (c =P j) => [->|_] /=; last by rewrite item_tabulate //= Ht Hc.
rewrite item_tabulate /= ?Ht // /bcast_index /=.
have -> : (if n_t == 1%N then 0%N else t) = t.
  by case: eqP Ht => // ->; rewrite ltnS leqn0 => /eqP.
rewrite item_map_array.
  by rewrite /= ?size_map ?size_ndindex ?size_iota /= ?muln1 ?addn0.
by rewrite item_column -/(tabulate _ _) item_tabulate //= Ht.
Qed.

Lemma solutions_step j :
  rcons (solutions_upto j)
    (times_at fsm [:: j], inputs_at fsm [:: j], r_at fsm [:: j]) =
  solutions_upto j.+1.
Proof. by rewrite /solutions_upto -addn1 iotaD map_cat cats1. Qed.

Lemma body_step j : (j < k)%N ->
  get_S_matrix_body fsm (S_upto j, error_upto j, solutions_upto j) [:: j] =
  Ok (S_upto j.+1, error_upto j.+1, solutions_upto j.+1).
Proof.
move=> Hj; rewrite /get_S_matrix_body; cbv zeta.
rewrite times_at_ok // bind_Ok -/(integrate_at fsm [:: j]) solve_step bind_Ok.
move: (S_step Hj) (error_step Hj); rewrite Htimes [last _ _]/=.
case: (drop_first _ _) => [r_sens|e]; last by [].
rewrite !bind_Ok => ->; rewrite bind_Ok.
case: (getitem_prefix _ _ _) => [r0|e]; last by [].
rewrite !bind_Ok; case: (reshape _ _) => [r0'|e]; last by [].
by rewrite !bind_Ok => ->; rewrite bind_Ok solutions_step.
Qed.

Lemma loop_from j d : (j + d = k)%N ->
  foldM (get_S_matrix_body fsm) (S_upto j, error_upto j, solutions_upto j)
    [seq [:: c] | c <- iota j d] =
  Ok (S_upto k, error_upto k, solutions_upto k).
Proof.
elim: d j => [|d IH] j; first by rewrite addn0 => ->.
rewrite addnS -addSn => Hk.
rewrite -[iota j d.+1]/(j :: iota j.+1 d) map_cons foldM_cons body_step.
  by rewrite -Hk addSn ltnS leq_addr.
by rewrite bind_Ok; apply: IH.
Qed.

(* The predicted value r[0] of combination c at its t-th time, and the
   error of the sample at offset i of the flattened error_n. *)
Definition predicted (c t : nat) : F :=
  item 0 (r_at fsm [:: c]) [:: 0%N; t].

Definition error_flat (i : nat) : F := predicted (i %% k) (i %/ k) * quarter.

Lemma loop_single :
  foldM (get_S_matrix_body fsm)
    (np_zeros 0 [:: n_p; n_t; k], np_zeros 0 [:: n_t; k], [::])
    (product [:: k]) =
  Ok (S_upto k, error_upto k, solutions_upto k).
Proof.
rewrite product1 -(@loop_from 0 k) // !zeros_tabulate.
by congr (foldM _ (_, _, _) _); apply: tabulate_ext.
Qed.

Lemma nth_error_upto i : (i < n_t * k)%N ->
  nth 0 (data (error_upto k)) i = error_flat i.
Proof.
move=> Hi; rewrite nth_tabulate /= ?muln1 //.
have Hk : (0 < k)%N by case: (k) Hi => //; rewrite muln0.
by rewrite divn1 ltn_mod Hk.
Qed.

(* get_S_matrix on a single input dimension, in closed form. *)
Lemma get_S_matrix_single :
  get_S_matrix fsm =
  if all (fun i => error_flat i != 0) (iota 0 (n_t * k)) then
    Ok (NdArray [:: n_p; (n_t * k)%N] (data (S_upto k)),
        tabulate [:: (n_t * k)%N; (n_t * k)%N] (fun ix =>
          (nth 0%N ix 0 == nth 0%N ix 1)%:R * (error_flat (nth 0%N ix 1) ^+ 2)^-1),
        solutions_upto k)
  else Raise LinAlgError.
Proof.
rewrite /get_S_matrix Htimes Hq [last _ _]/= [map _ _]/= loop_single bind_Ok.
have -> : reshape (S_upto k)
            [:: size (parameters fsm); prod_shape (behead (shape (S_upto k)))] =
          Ok (NdArray [:: n_p; (n_t * k)%N] (data (S_upto k))).
  by rewrite /reshape /= size_map size_ndindex /= !muln1 eqxx.
have -> : reshape (error_upto k) [:: prod_shape (shape (error_upto k))] =
          Ok (NdArray [:: (n_t * k)%N] (data (error_upto k))).
  by rewrite /reshape /= size_map size_ndindex /= !muln1 eqxx.
rewrite !bind_Ok [head _ _]/= eye_mul // bind_Ok.
set e2 := map_array _ _.
have He2 i : (i < n_t * k)%N -> item 0 e2 [:: i] = error_flat i ^+ 2.
  move=> Hi; rewrite item_map_array0 ?expr0n //; congr (_ ^+ 2).
  by rewrite /item /= muln1 addn0 nth_error_upto.
rewrite (inv_diag (n_t * k) (fun i => item 0 e2 [:: i])).
have -> : all (fun i => item 0 e2 [:: i] != 0) (iota 0 (n_t * k)) =
          all (fun i => error_flat i != 0) (iota 0 (n_t * k)).
  apply: eq_in_all => i; rewrite mem_iota add0n /= => Hi.
  by rewrite He2 // sqrf_eq0.
case: ifP => // _; rewrite bind_Ok; congr (Ok (_, _, _)).
apply: tabulate_ext => ix /in_shape2 [i [j [-> Hi Hj]]] /=.
by rewrite He2.
Qed.

(* ----------------- consequences for a single input dimension --------- *)

(* The sample of combination c at its t-th time sits at column t * k + c
   of S: time is the slow index of the flattened axis. *)
Lemma S_single_column p t c :
  (p < n_p)%N -> (t < n_t)%N -> (c < k)%N ->
  item 0 (NdArray [:: n_p; (n_t * k)%N] (data (S_upto k)))
    [:: p; (t * k + c)%N] =
  item 0 (integrate_at fsm [:: c]) [:: t.+1; p.+1].
Proof.
move=> Hp Ht Hc.
have -> : item 0 (NdArray [:: n_p; (n_t * k)%N] (data (S_upto k)))
            [:: p; (t * k + c)%N] = item 0 (S_upto k) [:: p; t; c].
  by rewrite /item /= !muln1 !addn0.
rewrite item_tabulate /= ?Hp ?Ht ?Hc // item_tabulate //=.
by rewrite Hy0 ltnS Hp size_times_at Ht.
Qed.

Lemma predictedE c t : (t < n_t)%N ->
  predicted c t = item 0 (integrate_at fsm [:: c]) [:: t.+1; 0%N].
Proof.
by move=> Ht; rewrite /predicted item_tabulate //= Hy0 size_times_at Ht.
Qed.

Lemma error_flat_neq0 :
  (forall c t, (c < k)%N -> (t < n_t)%N -> predicted c t != 0) ->
  all (fun i => error_flat i != 0) (iota 0 (n_t * k)).
Proof.
move=> H; apply/allP => i; rewrite mem_iota add0n /= => Hi.
have Hk : (0 < k)%N by case: (k) Hi => //; rewrite muln0.
rewrite /error_flat mulf_neq0 ?invr_neq0 ?pnatr_eq0 //.
by apply: H; rewrite ?ltn_mod // ltn_divLR.
Qed.

(* When every predicted value is nonzero, get_S_matrix returns. *)
Lemma get_S_matrix_single_ok :
  (forall c t, (c < k)%N -> (t < n_t)%N -> predicted c t != 0) ->
  get_S_matrix fsm =
  Ok (NdArray [:: n_p; (n_t * k)%N] (data (S_upto k)),
      tabulate [:: (n_t * k)%N; (n_t * k)%N] (fun ix =>
        (nth 0%N ix 0 == nth 0%N ix 1)%:R *
        (error_flat (nth 0%N ix 1) ^+ 2)^-1),
      solutions_upto k).
Proof. by move=> H; rewrite get_S_matrix_single error_flat_neq0. Qed.

(* When some predicted value is zero, the inversion fails. *)
Lemma get_S_matrix_single_singular c t :
  (c < k)%N -> (t < n_t)%N -> predicted c t = 0 ->
  get_S_matrix fsm = Raise LinAlgError.
Proof.
move=> Hc Ht H0; rewrite get_S_matrix_single.
case: ifP => // /allP /(_ (t * k + c)%N).
rewrite mem_iota add0n /= /error_flat.
have Hk : (0 < k)%N by apply: leq_ltn_trans Hc.
rewrite divnMDl // modnMDl divn_small // modn_small // addn0 H0 mul0r eqxx.
suff Hi : (t * k + c < n_t * k)%N by move/(_ Hi).
by ssr_nia.
Qed.

(** C2: on a single input dimension, when some predicted value at a
    sampled time is exactly zero, get_S_matrix returns no C at all: there is
    no floor on the error entries, diag(error ** 2) is singular and
    np.linalg.inv raises LinAlgError.  No infinite or NaN entry is returned
    or carried into F, because nothing is returned. *)
Theorem zero_prediction_raises c t :
  (c < k)%N -> (t < n_t)%N -> predicted c t = 0 ->
  get_S_matrix fsm = Raise LinAlgError.
Proof. exact: get_S_matrix_single_singular. Qed.

(* ------------------ what holds on a single input dimension ----------- *)

(** X3: on a single input dimension with nonzero predicted values,
    get_S_matrix returns S of shape (n_p, n_t * k), and the sensitivity to
    parameter p of the sample of input value c at time t is at row p,
    column t * k + c. *)
Theorem single_input_S_layout :
  (forall c t, (c < k)%N -> (t < n_t)%N -> predicted c t != 0) ->
  exists S_ C sols,
    [/\ get_S_matrix fsm = Ok (S_, C, sols),
        shape S_ = [:: n_p; (n_t * k)%N]
      & forall p t c, (p < n_p)%N -> (t < n_t)%N -> (c < k)%N ->
          item 0 S_ [:: p; (t * k + c)%N] =
          item 0 (integrate_at fsm [:: c]) [:: t.+1; p.+1]].
Proof.
move=> /get_S_matrix_single_ok ->; do 3!eexists; split=> //.
exact: S_single_column.
Qed.

(** X4: on a single input dimension with nonzero predicted values, the C
    returned by get_S_matrix is diagonal, with
    1 / (0.25 * predicted value) ** 2 for the sample of input value c at
    time t, at offset t * k + c. *)
Theorem single_input_C_diagonal :
  (forall c t, (c < k)%N -> (t < n_t)%N -> predicted c t != 0) ->
  exists S_ C sols,
    [/\ get_S_matrix fsm = Ok (S_, C, sols),
        shape C = [:: (n_t * k)%N; (n_t * k)%N]
      & forall t c t' c',
          (t < n_t)%N -> (c < k)%N -> (t' < n_t)%N -> (c' < k)%N ->
          item 0 C [:: (t * k + c)%N; (t' * k + c')%N] =
          if (t == t') && (c == c') then
            ((quarter * predicted c t) ^+ 2)^-1
          else 0].
Proof.
move=> /get_S_matrix_single_ok ->; do 3!eexists; split=> //.
move=> t c t' c' Ht Hc Ht' Hc'.
have Hk : (0 < k)%N by apply: leq_ltn_trans Hc.
have Hlt a b : (a < n_t)%N -> (b < k)%N -> (a * k + b < n_t * k)%N.
  by move=> Ha Hb; ssr_nia.
rewrite item_tabulate /= ?Hlt //.
rewrite /error_flat divnMDl // modnMDl divn_small // modn_small // addn0.
rewrite [predicted _ _ * _]mulrC.
have -> : (t * k + c == t' * k + c')%N = (t == t') && (c == c').
  apply/eqP/andP => [H|[/eqP -> /eqP ->]] //.
  have := congr1 (divn^~ k) H; have := congr1 (modn^~ k) H.
  rewrite !modnMDl !divnMDl // !divn_small // !modn_small // !addn0.
  by move=> -> ->.
by case: andP => [[/eqP -> /eqP ->]|_]; rewrite ?mul1r ?mul0r.
Qed.

(** X5: on a single input dimension with nonzero predicted values,
    get_S_matrix returns one solution per input value, in the order of the
    grid, each with the times of its row, the input value and the
    integrator's output. *)
Theorem single_input_solutions :
  (forall c t, (c < k)%N -> (t < n_t)%N -> predicted c t != 0) ->
  exists S_ C sols,
    [/\ get_S_matrix fsm = Ok (S_, C, sols),
        size sols = k
      & forall c, (c < k)%N ->
          nth (np_zeros 0 [::], [::], np_zeros 0 [::]) sols c =
          (times_at fsm [:: c], [:: nth 0 q c], r_at fsm [:: c])].
Proof.
move=> /get_S_matrix_single_ok ->; do 3!eexists; split=> //.
  by rewrite /solutions_upto size_map size_iota.
move=> c Hc; rewrite /solutions_upto (nth_map 0%N) ?size_iota // nth_iota //.
by rewrite add0n /inputs_at /= Hq.
Qed.

End SingleInput.

(* np.linalg.det(A) *)
Definition np_linalg_det (A : array) : result F :=
  if shape A is [:: n; m] then
    if n == m then Ok (\det (mx_of n n A)) else Raise LinAlgError
  else Raise LinAlgError.

(* F = S.dot(C).dot(S.T), the Fisher matrix. *)
Definition fisher_matrix (S_ C : array) : result array :=
  let! SC := np_dot 0 +%R *%R S_ C in
  np_dot 0 +%R *%R SC (transpose 0 S_).

(* fischer_determinant(fsm, S, C) *)
Definition fischer_determinant (fsm : FischerData) (S_ C : array) : result F :=
  let! F_ := fisher_matrix S_ C in
  np_linalg_det F_.

(** C10: called with covar=False (the default), calculate_fischer_observable
    drops the inverse covariance C that get_S_matrix returned and hands the
    criterion the identity matrix of size S.shape[1] instead, so the error
    model does not reach the score; with covar=True the criterion receives
    C itself.  The model, S and the solutions are returned as get_S_matrix
    gave them. *)
Theorem calculate_fischer_observable_identity (fsm : FischerModel)
  (S_ C : array) (r : seq (array * seq F * array)) :
  get_S_matrix fsm = Ok (S_, C, r) ->
  let I_ := np_eye (nth 0%N (shape S_) 1) (nth 0%N (shape S_) 1) in
  calculate_fischer_observable fsm false =
    (let! obs := observable fsm fsm S_ I_ in Ok (obs, fsm, S_, I_, r)) /\
  calculate_fischer_observable fsm true =
    (let! obs := observable fsm fsm S_ C in Ok (obs, fsm, S_, C, r)).
Proof. by move=> H; rewrite /calculate_fischer_observable H. Qed.

End Solving.

(* --------------------------------------------------------------------- *)
(*  FisInMa/plotting/plotting.py                                          *)
(* --------------------------------------------------------------------- *)

Local Close Scope ring_scope.

Module Plotting.

Section Plotting.

(* The numbers of the arrays and the arithmetic numpy applies to them.
   Nothing is assumed of the operations: they may be those of a field or
   those of IEEE floating point, where division by zero returns a value. *)
Variable T : Type.
Variables (zero one : T) (add mul div : T -> T -> T).

Notation array := (ndarray T).

(* A user-supplied function g(t, x, inputs, parameters, ode_args); what it
   returns is read in row-major order. *)
Definition callable : Type := T -> seq T -> seq T -> seq T -> seq T -> seq T.

(* Calling an attribute that may be None. *)
Definition call (f : option callable) (t : T) (x q p c : seq T)
  : result (seq T) :=
  if f is Some g then Ok (g t x q p c) else Raise TypeError.

(* callable(f) *)
Definition is_callable (f : option callable) : bool :=
  if f is Some _ then true else false.

(* sol.ode_solution: the sampled times .t and states .y *)
Record OdeSolution : Type := { sol_t : seq T; sol_y : array }.

(* One entry of fsr.individual_results. *)
Record FisherResultSingle : Type := {
  ode_x0 : seq T;
  ode_t0 : T;
  times : array;
  parameters : seq T;
  inputs : seq T;
  ode_args : seq T;
  ode_solution : OdeSolution;
  sensitivities : array
}.

(* FisherResults (FisInMa.model), the fields the module reads; times_ub is
   variable_definitions.times.ub, None when variable_definitions.times is
   None. *)
Record FisherResults : Type := {
  individual_results : seq FisherResultSingle;
  times_ub : option T;
  ode_fun : option callable;
  ode_dfdx : option callable;
  ode_dfdp : option callable;
  ode_dfdx0 : option callable;
  obs_fun : option callable;
  obs_dgdp : option callable;
  obs_dgdx : option callable;
  obs_dgdx0 : option callable;
  relative_sensitivities : bool
}.

(* The arguments handed to the integrator after the initial state. *)
Definition ivp_args : Type :=
  (option callable * option callable * option callable * option callable *
   seq T * seq T * seq T * nat * nat)%type.

(* sp.integrate.solve_ivp(ode_rhs, (t_low, t_high), y0, t_eval=..., args=...),
   read at res.t and res.y.  ode_rhs (FisInMa.solving) is not among the
   sources: the integrator together with it is a parameter. *)
Variable solve_ivp : T * T -> seq T -> seq T -> ivp_args -> seq T * array.

(* np.linspace(low, high) and np.max *)
Variable np_linspace : T -> T -> seq T.
Variable np_max : array -> T.

(* n_p_full (lines 74, 123) *)
Definition n_p_full (fsr : FisherResults) (sol : FisherResultSingle) : nat :=
  size (parameters sol) +
  (if is_callable (ode_dfdx0 fsr) then size (ode_x0 sol) else 0).

(* x0_full (lines 77-80, 130-133): the initial state of the augmented
   system, np.concatenate((sol.ode_x0, np.zeros(n_x * n_p), np.ones(n_x)))
   when ode_dfdx0 is callable. *)
Definition x0_full (fsr : FisherResults) (sol : FisherResultSingle) : seq T :=
  let n_x := size (ode_x0 sol) in
  let n_p := size (parameters sol) in
  if is_callable (ode_dfdx0 fsr) then
    ode_x0 sol ++ nseq (n_x * n_p) zero ++ nseq n_x one
  else ode_x0 sol ++ nseq (n_x * n_p) zero.

(* The call of solve_ivp shared by both plotting functions. *)
Definition integrate (fsr : FisherResults) (sol : FisherResultSingle)
  : seq T * array :=
  let times_low := ode_t0 sol in
  let times_high :=
    if times_ub fsr is Some ub then ub else np_max (times sol) in
  let t_values := np_linspace times_low times_high in
  solve_ivp (times_low, times_high) (x0_full fsr sol) t_values
    (ode_fun fsr, ode_dfdx fsr, ode_dfdp fsr, ode_dfdx0 fsr,
     inputs sol, parameters sol, ode_args sol,
     size (ode_x0 sol), size (parameters sol)).

(* x[:, i] of a 2-D array with n rows. *)
Definition column (n : nat) (x : array) (i : nat) : seq T :=
  [seq item zero x [:: j; i] | j <- iota 0 n].

(* s[lo:lo+n, :, i] of a 3-D array. *)
Definition rows_at (s : array) (lo n i : nat) : result array :=
  if shape s is [:: _; b; c] then
    if i < c then
      Ok (tabulate [:: n; b] (fun ix =>
            item zero s [:: lo + nth 0 ix 0; nth 0 ix 1; i]))
    else Raise IndexError
  else Raise IndexError.

(* A.reshape((-1,) + sh): the first dimension is inferred. *)
Definition reshape_infer_first (A : array) (sh : seq nat) : result array :=
  let p := prod_shape sh in
  if (0 < p) && (p %| size (data A)) then
    Ok (NdArray (size (data A) %/ p :: sh) (data A))
  else Raise ValueError.

(* np.array([f(i, ti) for i, ti in enumerate(t)]), flattened. *)
Definition stack_over (t : seq T) (f : nat -> T -> result (seq T))
  : result array :=
  let! rows := mapM (fun it => f it.1 it.2) (zip (iota 0 (size t)) t) in
  Ok (np_array1 (flatten rows)).

(* s[ii] *= p *)
Definition imul_row (s : array) (ii : nat) (p : T) : result array :=
  if shape s is a :: _ then
    if ii < a then
      Ok (tabulate (shape s) (fun ix =>
            if head 0 ix == ii then mul (item zero s ix) p
            else item zero s ix))
    else Raise IndexError
  else Raise IndexError.

(* s[(slice(None), ii)] /= o: the entries with index ii on axis 1 are
   divided by o, broadcast along axis 0.  numpy's division raises nothing. *)
Definition idiv_col (s : array) (ii : nat) (o : array) : result array :=
  if shape s is a :: b :: rest then
    if ii < b then
      let! o' := broadcast_to zero o (a :: rest) in
      Ok (tabulate (shape s) (fun ix =>
            if nth 0 ix 1 == ii then
              div (item zero s ix) (item zero o' (nth 0 ix 0 :: drop 2 ix))
            else item zero s ix))
    else Raise IndexError
  else Raise IndexError.

(* Lines 185-197: the relative sensitivities, s scaled row by row by the
   parameters and divided by the observable. *)
Definition relative_transform (params : seq T) (obs s : array)
  : result array :=
  let! s := foldM (fun s ip => imul_row s ip.1 ip.2) s
              (zip (iota 0 (size params)) params) in
  foldM (fun s ii =>
           let! o := getitem_prefix zero obs [:: ii] in idiv_col s ii o)
        s (iota 0 (head 0 (shape obs))).


(* The model defines an observable: obs_fun, obs_dgdp and obs_dgdx are all
   callable (the test of lines 124 and 147). *)
Definition observed (fsr : FisherResults) : bool :=
  [&& is_callable (obs_fun fsr), is_callable (obs_dgdp fsr)
    & is_callable (obs_dgdx fsr)].

(* Reading the locals term1 and term2, bound only by the branch of line
   147. *)
Definition read_terms (terms : option (array * array))
  : result (array * array) :=
  if terms is Some p then Ok p else Raise UnboundLocalError.

(* Lines 115-184 of plot_all_sensitivities2 for one entry sol of
   fsr.individual_results: the times t, the sensitivities s of the
   observable (the chain rule), the observable obs along the solution,
   and n_obs. *)
Definition observable_sensitivities (fsr : FisherResults)
  (sol : FisherResultSingle) : result (seq T * array * array * nat) :=
  let n_x := size (ode_x0 sol) in
  let n_p := size (parameters sol) in
  let n_p_full := n_p_full fsr sol in
  let user f t x := call f t x (inputs sol) (parameters sol) (ode_args sol) in
  let! n_obs :=
    if observed fsr then
      let! g := user (obs_fun fsr) (ode_t0 sol) (ode_x0 sol) in Ok (size g)
    else Ok n_x in
  let res := integrate fsr sol in
  let t := res.1 in
  let! y_x := take_first zero n_x res.2 in
  let! x := reshape_infer y_x [:: n_x] in
  let! r := drop_firstn zero n_x res.2 in
  let! r := reshape_infer r [:: n_x; n_p_full] in
  let! s := swapaxes zero r 0 1 in
  let n_t := size t in
  let chain lo n i ti :=
    let! g := user (obs_dgdx fsr) ti (column n_x x i) in
    let! G := reshape (np_array1 g) [:: n_x; n_obs] in
    let! sl := rows_at s lo n i in
    let! m := np_dot zero add mul (transpose zero G) (transpose zero sl) in
    Ok (data m) in
  let! terms :=
    if observed fsr then
      let! a := stack_over t (fun i_t ti =>
                  user (obs_dgdp fsr) ti (column n_x x i_t)) in
      let! a := reshape a [:: n_t; n_obs; n_p] in
      let! term1 := swapaxes zero a 0 2 in
      let! b := stack_over t (chain 0 (minn n_p (head 0 (shape s)))) in
      let! b := reshape b [:: n_t; n_obs; n_p] in
      let! term2 := swapaxes zero b 0 2 in
      Ok (Some (term1, term2))
    else Ok None in
  let! s :=
    if is_callable (ode_dfdx0 fsr) && is_callable (obs_dgdx0 fsr) then
      let! a := stack_over t (fun i_t ti =>
                  user (obs_dgdx0 fsr) ti (column n_x x i_t)) in
      let! a := reshape_infer_first a [:: n_obs; n_x] in
      let! term1_add := swapaxes zero a 0 2 in
      let! b := stack_over t (chain n_p (head 0 (shape s) - n_p)) in
      let! b := reshape b [:: n_t; n_obs; n_x] in
      let! term2_add := swapaxes zero b 0 2 in
      let! (term1, term2) := read_terms terms in
      let! term1_full := concatenate0 term1 term1_add in
      let! term2_full := concatenate0 term2 term2_add in
      np_binop zero add term1_full term2_full
    else
      let! (term1, term2) := read_terms terms in
      np_binop zero add term1 term2 in
  let! o := stack_over t (fun i_t ti =>
              user (obs_fun fsr) ti (column n_x x i_t)) in
  let! o := reshape_infer_first o [:: n_obs] in
  let obs := transpose zero o in
  Ok (t, s, obs, n_obs).

(* params (lines 187-190): the parameters, followed by the initial values
   when ode_dfdx0 is callable. *)
Definition params (fsr : FisherResults) (sol : FisherResultSingle) : seq T :=
  if is_callable (ode_dfdx0 fsr) then parameters sol ++ ode_x0 sol
  else parameters sol.

(* Lines 115-197: the times t, the sensitivities s that are plotted, made
   relative when fsr.relative_sensitivities is set, and n_obs. *)
Definition sensitivities2 (fsr : FisherResults) (sol : FisherResultSingle)
  : result (seq T * array * nat) :=
  let! (t, s, obs, n_obs) := observable_sensitivities fsr sol in
  let! s :=
    if relative_sensitivities fsr == true then
      relative_transform (params fsr sol) obs s
    else Ok s in
  Ok (t, s, n_obs).

(* One figure: the curve (t, y) and the sampled points
   (sol.ode_solution.t, r) for observable j and parameter k. *)
Record figure : Type := {
  fig_j : nat;
  fig_k : nat;
  curve : seq T * array;
  points : seq T * array
}.

(* plot_all_sensitivities2(fsr): the figures it draws, in order. *)
Definition plot_all_sensitivities2 (fsr : FisherResults)
  : result (seq (seq figure)) :=
  mapM (fun sol =>
    let! (t, s, n_obs) := sensitivities2 fsr sol in
    mapM (fun jk =>
      let j := nth 0 jk 0 in
      let k := nth 0 jk 1 in
      let! r := getitem_prefix zero (sensitivities sol) [:: k; j] in
      let! y := getitem_prefix zero s [:: k; j] in
      Ok {| fig_j := j; fig_k := k; curve := (t, y);
            points := (sol_t (ode_solution sol), r) |})
      (product [:: n_obs; n_p_full fsr sol]))
    (individual_results fsr).


(* The model with its observable removed: obs_fun, obs_dgdp and obs_dgdx
   are None. *)
Definition without_observable (fsr : FisherResults) : FisherResults := {|
  individual_results := individual_results fsr;
  times_ub := times_ub fsr;
  ode_fun := ode_fun fsr;
  ode_dfdx := ode_dfdx fsr;
  ode_dfdp := ode_dfdp fsr;
  ode_dfdx0 := ode_dfdx0 fsr;
  obs_fun := None;
  obs_dgdp := None;
  obs_dgdx := None;
  obs_dgdx0 := obs_dgdx0 fsr;
  relative_sensitivities := relative_sensitivities fsr
|}.

(* Splits on the computation at the head of a chain of binds. *)
Ltac split_head c :=
  lazymatch c with
  | bind ?c' _ => split_head c'
  | if ?b then _ else _ => case: b => //=
  | Raise _ => fail
  | Ok _ => fail
  | _ => case: c => [?|?] //=
  end.

Ltac step_binds :=
  repeat match goal with |- is_true (raises ?c) => split_head c end.

(* Without an observable the locals term1 and term2 are never bound, and
   the function stops at its first use of one of them, if not before. *)
Lemma observable_sensitivities_unobserved (fsr : FisherResults)
  (sol : FisherResultSingle) :
  observed fsr = false -> raises (observable_sensitivities fsr sol).
Proof.
by move=> H; rewrite /observable_sensitivities H /=; step_binds.
Qed.

Lemma sensitivities2_unobserved (fsr : FisherResults)
  (sol : FisherResultSingle) :
  observed fsr = false -> raises (sensitivities2 fsr sol).
Proof.
move=> /(observable_sensitivities_unobserved sol); rewrite /sensitivities2.
by case: (observable_sensitivities fsr sol).
Qed.


(* ------------------------- the initial state ------------------------- *)

(* The dx/dx0 block of x0_full as the code builds it: n_x ones. *)
Lemma x0_full_blocks (fsr : FisherResults) (sol : FisherResultSingle) :
  x0_full fsr sol =
  ode_x0 sol ++ nseq (size (ode_x0 sol) * size (parameters sol)) zero ++
  (if is_callable (ode_dfdx0 fsr) then nseq (size (ode_x0 sol)) one
   else [::]).
Proof. by rewrite /x0_full; case: is_callable; rewrite ?cats0. Qed.

Lemma size_x0_full (fsr : FisherResults) (sol : FisherResultSingle) :
  size (x0_full fsr sol) =
  size (ode_x0 sol) + size (ode_x0 sol) * size (parameters sol) +
  (if is_callable (ode_dfdx0 fsr) then size (ode_x0 sol) else 0).
Proof.
rewrite x0_full_blocks !size_cat size_nseq addnA; congr (_ + _).
by case: is_callable; rewrite /= ?size_nseq.
Qed.

(* The n-by-n identity matrix in row-major order: np.eye(n).flatten(). *)
Definition identity_flat (n : nat) : seq T :=
  [seq if ij.1 == ij.2 then one else zero
  | ij <- [seq (i, j) | i <- iota 0 n, j <- iota 0 n]].

Lemma size_identity_flat n : size (identity_flat n) = n * n.
Proof. by rewrite /identity_flat size_map size_allpairs !size_iota. Qed.

(* What the rest of the function expects of the solution: res.y[n_x:] is
   reshaped to (n_x, n_p_full, -1), that is n_x * n_p_full sensitivity
   rows, n_x * n_x of them for dx/dx0. *)
Lemma sensitivity_rows_expected (fsr : FisherResults) (sol : FisherResultSingle) :
  is_callable (ode_dfdx0 fsr) ->
  size (ode_x0 sol) * n_p_full fsr sol =
  size (ode_x0 sol) * size (parameters sol) +
  size (identity_flat (size (ode_x0 sol))).
Proof. by move=> H; rewrite /n_p_full H mulnDr size_identity_flat. Qed.

(* ------------------------ relative sensitivities --------------------- *)

Section Relative.

Variables (params : seq T) (obs s : array) (P J N : nat).

Hypothesis s_wf : well_formed s.
Hypothesis s_shape : shape s = [:: P; J; N].
Hypothesis params_size : size params = P.
Hypothesis obs_shape : shape obs = [:: J; N].

(* s after the rows 0 .. j-1 have been multiplied by their parameter. *)
Definition scaled_upto (j : nat) : array :=
  tabulate [:: P; J; N] (fun ix =>
    if nth 0 ix 0 < j then mul (item zero s ix) (nth zero params (nth 0 ix 0))
    else item zero s ix).

(* ... and after the observables 0 .. j-1 have been divided out. *)
Definition divided_upto (j : nat) : array :=
  tabulate [:: P; J; N] (fun ix =>
    if nth 0 ix 1 < j then
      div (item zero (scaled_upto P) ix)
          (item zero obs [:: nth 0 ix 1; nth 0 ix 2])
    else item zero (scaled_upto P) ix).

Lemma scaled_upto0 : scaled_upto 0 = s.
Proof.
apply: (@ndarray_ext _ zero) => //; first exact: wf_tabulate.
by move=> ix Hix; rewrite item_tabulate.
Qed.

Lemma imul_row_step j : j < P ->
  imul_row (scaled_upto j) j (nth zero params j) = Ok (scaled_upto j.+1).
Proof.
move=> Hj; rewrite /imul_row /= Hj; congr Ok.
apply: tabulate_ext => ix /in_shape3 [i [l [t [-> Hi Hl Ht]]]] /=.
rewrite item_tabulate /= ?Hi ?Hl ?Ht // ltnS.
by case: (ltngtP i j) => [||->].
Qed.

Lemma idiv_col_step j : j < J ->
  (let! o := getitem_prefix zero obs [:: j] in idiv_col (divided_upto j) j o) =
  Ok (divided_upto j.+1).
Proof.
move=> Hj; rewrite /getitem_prefix /ndim obs_shape /= Hj /=.
rewrite /idiv_col /= Hj /broadcast_to /broadcastable /= eqxx /=; congr Ok.
apply: tabulate_ext => ix /in_shape3 [i [l [t [-> Hi Hl Ht]]]] /=.
rewrite [item _ (divided_upto j) _]item_tabulate /= ?Hi ?Hl ?Ht //.
rewrite ltnS; case: (ltngtP l j) => [||->] //.
rewrite item_tabulate /= ?Hi ?Ht // /bcast_index /=.
have -> : (if N == 1 then 0 else t) = t.
  by case: eqP Ht => // ->; rewrite ltnS leqn0 => /eqP.
by rewrite item_tabulate //= Ht.
Qed.

(* The relative sensitivities entry by entry: s[i, j, t] * params[i] /
   obs[j, t].  The transform raises nothing, whatever the values of obs. *)
Lemma relative_transform_entries :
  relative_transform params obs s =
  Ok (tabulate [:: P; J; N] (fun ix =>
        div (mul (item zero s ix) (nth zero params (nth 0 ix 0)))
            (item zero obs [:: nth 0 ix 1; nth 0 ix 2]))).
Proof.
rewrite /relative_transform.
have -> : zip (iota 0 (size params)) params =
          [seq (i, nth zero params i) | i <- iota 0 P].
  rewrite -params_size; apply: (@eq_from_nth _ (0, zero)).
    by rewrite size_zip size_map size_iota minnn.
  move=> i; rewrite size_zip size_iota minnn => Hi.
  by rewrite nth_zip ?size_iota // (nth_map 0) ?size_iota // nth_iota.
rewrite foldM_map -{1}scaled_upto0.
rewrite (foldM_iota (inv := scaled_upto)).
  by move=> i /andP [_ Hi]; apply: imul_row_step.
rewrite bind_Ok add0n obs_shape /=.
have -> : scaled_upto P = divided_upto 0.
  by apply: tabulate_ext => ix Hix; rewrite /= item_tabulate.
rewrite (foldM_iota (f := fun s ii => bind _ _) (inv := divided_upto)).
  by move=> i /andP [_ Hi]; apply: idiv_col_step.
congr Ok; apply: tabulate_ext => ix /in_shape3 [i [l [t [-> Hi Hl Ht]]]] /=.
by rewrite Hl item_tabulate /= ?Hi ?Hl ?Ht.
Qed.

End Relative.

(* ------------------------------ fixtures ----------------------------- *)

(* A FisherResults with the given derivative and observable functions. *)
Definition model (dfdx0 : option callable)
  (obs : option callable * option callable * option callable)
  (dgdx0 : option callable) (relative : bool) (ub : T)
  (sols : seq FisherResultSingle) : FisherResults := {|
  individual_results := sols;
  times_ub := Some ub;
  ode_fun := None;
  ode_dfdx := None;
  ode_dfdp := None;
  ode_dfdx0 := dfdx0;
  obs_fun := obs.1.1;
  obs_dgdp := obs.1.2;
  obs_dgdx := obs.2;
  obs_dgdx0 := dgdx0;
  relative_sensitivities := relative
|}.

(* An entry of individual_results with the given initial state, start time
   and parameters, and nothing sampled yet. *)
Definition result_single (x0 : seq T) (t0 : T) (ps : seq T)
  : FisherResultSingle := {|
  ode_x0 := x0;
  ode_t0 := t0;
  times := np_array1 [::];
  parameters := ps;
  inputs := [::];
  ode_args := [::];
  ode_solution := {| sol_t := [::]; sol_y := np_array1 [::] |};
  sensitivities := np_zeros zero [:: size ps + size x0; size x0; 0]
|}.

(* ------------------------------ theorems ----------------------------- *)

(** C3: with ode_dfdx0 supplied and two states a, b (one parameter), the
    augmented initial state the code builds is [a, b, 0, 0, 1, 1]: the
    dx/dx0 block is np.ones(n_x), of length n_x, where the flattened
    identity [1, 0, 0, 1] of length n_x * n_x is stated (and is what the
    later reshape to (n_x, n_p_full, -1) counts on). *)
Theorem x0_full_two_states (f : callable) (a b p t0 ub : T) :
  let fsr := model (Some f) (None, None, None) None false ub [::] in
  let sol := result_single [:: a; b] t0 [:: p] in
  [/\ x0_full fsr sol = [:: a; b; zero; zero; one; one],
      ode_x0 sol ++ nseq 2 zero ++ identity_flat 2 =
        [:: a; b; zero; zero; one; zero; zero; one],
      size (x0_full fsr sol) - size (ode_x0 sol) = 4
    & size (ode_x0 sol) * n_p_full fsr sol = 6].
Proof. by []. Qed.

Lemma mapM_raises {A B : Type} (f : A -> result B) x s :
  raises (f x) -> raises (mapM f (x :: s)).
Proof. by rewrite /=; case: (f x). Qed.

(** C6: for every model whose obs_fun, obs_dgdp and obs_dgdx are None,
    plot_all_sensitivities2 raises an exception as soon as there is one
    result to plot (term1 and term2 are read without having been bound);
    it completes only when fsr.individual_results is empty, and then it
    computes nothing. *)
Theorem plot_all_sensitivities2_unobserved (fsr : FisherResults) :
  raises (plot_all_sensitivities2 (without_observable fsr)) =
  ~~ nilp (individual_results fsr).
Proof.
rewrite /plot_all_sensitivities2 /=.
case: (individual_results fsr) => [|sol sols] //=.
have := @sensitivities2_unobserved (without_observable fsr) sol erefl.
by case: (sensitivities2 _ _).
Qed.

(** C5: in relative-sensitivity mode, once the chain rule has returned the
    sensitivities s of shape (P, J, N) and the observable obs of shape
    (J, N), every entry s[i, j, t] is multiplied by params[i] and divided by
    obs[j, t]; the division is numpy's element-wise one and the function
    returns whatever the values of obs are, zeros included: nothing is
    checked and nothing is raised. *)
Theorem relative_sensitivities_entries (fsr : FisherResults)
  (sol : FisherResultSingle) (t : seq T) (s obs : array) (n_obs P J N : nat) :
  observable_sensitivities fsr sol = Ok (t, s, obs, n_obs) ->
  relative_sensitivities fsr = true ->
  well_formed s -> shape s = [:: P; J; N] ->
  size (params fsr sol) = P -> shape obs = [:: J; N] ->
  sensitivities2 fsr sol =
  Ok (t,
      tabulate [:: P; J; N] (fun ix =>
        div (mul (item zero s ix) (nth zero (params fsr sol) (nth 0 ix 0)))
            (item zero obs [:: nth 0 ix 1; nth 0 ix 2])),
      n_obs).
Proof.
move=> Hobs Hrel Hwf Hs Hp Ho; rewrite /sensitivities2 Hobs bind_Ok Hrel eqxx.
by rewrite (relative_transform_entries Hwf Hs Hp Ho).
Qed.

End Plotting.


(* ------------------- concrete models in floating point --------------- *)

Section Floats.

Local Open Scope float_scope.

Fixpoint float_of_nat (n : nat) : float :=
  if n is n'.+1 then float_of_nat n' + 1 else 0.

(* np.linspace(low, high): 50 points, the last one high itself. *)
Definition float_linspace (low high : float) : seq float :=
  [seq low + float_of_nat i * ((high - low) / 49) | i <- iota 0 49] ++
  [:: high].

Definition float_max (A : ndarray float) : float :=
  foldr (fun x m => if PrimFloat.ltb m x then x else m) neg_infinity (data A).

(* The exact solution of dx/dt = p with its sensitivity dx/dp = t - t0:
   an integrator for the model used below. *)
Definition constant_rate_ivp (span : float * float) (y0 t_eval : seq float)
  (args : ivp_args float) : seq float * ndarray float :=
  let '(_, _, _, _, _, ps, _, _, _) := args in
  let x0 := nth 0 y0 0 in
  let p := nth 0 ps 0 in
  (t_eval,
   NdArray [:: 2%N; size t_eval]
     ([seq x0 + p * (t - span.1) | t <- t_eval] ++
      [seq t - span.1 | t <- t_eval])).

(* The observable is the state itself: g = x, dg/dp = 0, dg/dx = 1. *)
Definition obs_state : option (callable float) :=
  Some (fun t x q p c => x).
Definition obs_state_dgdp : option (callable float) :=
  Some (fun t x q p c => [:: 0]).
Definition obs_state_dgdx : option (callable float) :=
  Some (fun t x q p c => [:: 1]).

(* x(0) = -1 and p = 1, plotted on [0, 1]: x reaches 0 at t = 1. *)
Definition sol_crossing : FisherResultSingle float :=
  result_single 0 [:: -1] 0 [:: 1].

Definition fsr_crossing (relative : bool) : FisherResults float :=
  model None (obs_state, obs_state_dgdp, obs_state_dgdx) None relative 1
    [:: sol_crossing].

Definition float_sensitivities2 :=
  sensitivities2 0 1 PrimFloat.add PrimFloat.mul PrimFloat.div
    constant_rate_ivp float_linspace float_max.

Definition float_observable_sensitivities :=
  observable_sensitivities 0 1 PrimFloat.add PrimFloat.mul
    constant_rate_ivp float_linspace float_max.

(* The exception of the model without observable. *)
Lemma crossing_unobserved :
  float_sensitivities2 (without_observable (fsr_crossing false)) sol_crossing =
  Raise UnboundLocalError.
Proof. by vm_compute. Qed.

(* The observable is zero at the last plotted time, t = 1; in relative
   mode the function returns, and the curve ends in an infinite value. *)
Lemma crossing_relative_infinite :
  exists t s obs s',
    [/\ float_observable_sensitivities (fsr_crossing true) sol_crossing =
          Ok (t, s, obs, 1%N),
        item 0 obs [:: 0%N; 49%N] = 0,
        float_sensitivities2 (fsr_crossing true) sol_crossing = Ok (t, s', 1%N)
      & item 0 s' [:: 0%N; 0%N; 49%N] = infinity].
Proof.
do 4!eexists; split; first by vm_compute; reflexivity.
- by vm_compute.
- by vm_compute; reflexivity.
- by vm_compute.
Qed.

(* The entries of the relative sensitivities of the same model. *)
Lemma crossing_relative_entries :
  exists t s obs,
    [/\ float_observable_sensitivities (fsr_crossing true) sol_crossing =
          Ok (t, s, obs, 1%N),
        item 0 obs [:: 0%N; 49%N] = 0
      & float_sensitivities2 (fsr_crossing true) sol_crossing =
        Ok (t,
            tabulate [:: 1%N; 1%N; 50%N] (fun ix =>
              PrimFloat.div
                (PrimFloat.mul (item 0 s ix) (nth 0 [:: 1] (nth 0%N ix 0)))
                (item 0 obs [:: nth 0%N ix 1; nth 0%N ix 2])),
            1%N)].
Proof.
do 3!eexists; split; first by vm_compute; reflexivity.
- by vm_compute.
- apply: (@relative_sensitivities_entries float 0 1 PrimFloat.add
            PrimFloat.mul PrimFloat.div constant_rate_ivp float_linspace
            float_max (fsr_crossing true) sol_crossing _ _ _ 1 1 1 50) => //.
Defined.

End Floats.
End Plotting.

(* --------------------------------------------------------------------- *)
(*  src/solving.py: the eigenvalue criteria                               *)
(* --------------------------------------------------------------------- *)

Local Open Scope ring_scope.

Section Criteria.

(* The eigenvalues of a real matrix are complex numbers in general: the
   criteria are stated over an algebraically closed field that holds the
   entries of S and C. *)
Variable K : numClosedFieldType.

Notation array := (ndarray K).

(* The roots of a polynomial with their multiplicities. *)
Definition roots_of (p : {poly K}) : seq K :=
  sval (closed_field_poly_normal p).

(* np.linalg.eigvals(A): the eigenvalues of a square matrix, each repeated
   according to its multiplicity: the roots of the characteristic
   polynomial.  LinAlgError when A is not square. *)
Definition np_linalg_eigvals (A : array) : result (seq K) :=
  if shape A is [:: n; m] then
    if n == m then Ok (roots_of (char_poly (mx_of n n A)))
    else Raise LinAlgError
  else Raise LinAlgError.

(* np.sum over a list *)
Definition np_sum (s : seq K) : K := foldr +%R 0 s.

(* np.trace(A): the sum of the diagonal of a 2-D array. *)
Definition np_trace (A : array) : K :=
  foldr (fun i acc => item 0 A [:: i; i] + acc) 0
    (iota 0 (minn (nth 0%N (shape A) 0) (nth 0%N (shape A) 1))).

(* fischer_sumeigenval(fsm, S, C) *)
Definition fischer_sumeigenval (fsm : FischerData K) (S_ C : array)
  : result K :=
  let! F_ := fisher_matrix S_ C in
  let! ev := np_linalg_eigvals F_ in
  Ok (np_sum ev).

(* numpy orders complex numbers by their real parts, then by their imaginary
   parts. *)
Definition lex_le (x y : K) : bool :=
  ('Re x < 'Re y) || (('Re x == 'Re y) && ('Im x <= 'Im y)).

(* np.minimum on two numbers *)
Definition np_minimum (x y : K) : K := if lex_le x y then x else y.

(* np.min over a 1-D array; the reduction has no identity: ValueError on an
   empty array. *)
Definition np_min (s : seq K) : result K :=
  if s is x :: s' then Ok (foldl np_minimum x s') else Raise ValueError.

(* fischer_mineigenval(fsm, S, C) *)
Definition fischer_mineigenval (fsm : FischerData K) (S_ C : array)
  : result K :=
  let! F_ := fisher_matrix S_ C in
  let! ev := np_linalg_eigvals F_ in
  np_min ev.

(* A is a square 2-D array of real numbers with A[i, j] = A[j, i]. *)
Definition real_symmetric (A : array) : bool :=
  if shape A is [:: n; m] then
    (n == m) &&
    all (fun i => all (fun j => (item 0 A [:: i; j] \is Num.real) &&
                                (item 0 A [:: i; j] == item 0 A [:: j; i]))
                      (iota 0 n)) (iota 0 n)
  else false.

(* S = [[1, 0], [0, 1]] and C = [[0, -1], [1, 0]]: a Fisher matrix
   S.dot(C).dot(S.T) = C that is not symmetric. *)
Definition S_plane : array := NdArray [:: 2; 2]%N [:: 1; 0; 0; 1].

Definition C_turn : array := NdArray [:: 2; 2]%N [:: 0; -1; 1; 0].

(* The eigenvalues of a matrix add up to its trace. *)
Lemma sum_roots_char_poly n (M : 'M[K]_n) :
  \sum_(z <- roots_of (char_poly M)) z = \tr M.
Proof.
rewrite /roots_of; case: closed_field_poly_normal => r /= Hr.
move: (char_poly_monic M); rewrite monicE => /eqP Hlead.
rewrite Hlead scale1r in Hr.
have Hsize : size r = n.
  by apply/eqP; rewrite -eqSS -(size_char_poly M) Hr size_prod_XsubC.
case: n M Hr Hlead Hsize => [|n] M Hr _ Hsize.
  by rewrite (size0nil Hsize) big_nil /mxtrace big_ord0.
apply: oppr_inj; rewrite -char_poly_trace // Hr.
by rewrite -coefPn_prod_XsubC Hsize.
Qed.

Lemma np_sumE (s : seq K) : np_sum s = \sum_(z <- s) z.
Proof. by rewrite /np_sum; elim: s => [|x s IH] /=; rewrite ?big_nil ?big_cons ?IH. Qed.

Lemma np_trace_square (A : array) n :
  shape A = [:: n; n] -> np_trace A = \tr (mx_of n n A).
Proof.
move=> HA; rewrite /np_trace HA /= minnn /mxtrace.
have -> : foldr (fun i acc => item 0 A [:: i; i] + acc) 0 (iota 0 n) =
          \sum_(0 <= i < n) item 0 A [:: i; i].
  rewrite /index_iota subn0.
  by elim: (iota 0 n) => [|i s IH] /=; rewrite ?big_nil ?big_cons ?IH.
by rewrite big_mkord; apply: eq_bigr => i _; rewrite mxE.
Qed.

Lemma shape_np_dot (A B C : array) :
  np_dot 0 +%R *%R A B = Ok C ->
  shape C = [:: nth 0%N (shape A) 0; nth 0%N (shape B) 1].
Proof.
rewrite /np_dot; case: (shape A) => [|n [|l [|? ?]]] //.
case: (shape B) => [|l' [|m [|? ?]]] //.
by case: ifP => // _ [<-].
Qed.

(* The Fisher matrix is square. *)
Lemma fisher_matrix_square (S_ C F_ : array) :
  fisher_matrix S_ C = Ok F_ ->
  shape F_ = [:: nth 0%N (shape S_) 0; nth 0%N (shape S_) 0].
Proof.
rewrite /fisher_matrix; case E1: (np_dot _ _ _ S_ C) => [SC|] //=.
move=> /shape_np_dot ->; rewrite (shape_np_dot E1) /=.
move: E1; rewrite /np_dot; case: (shape S_) => [|n [|l [|? ?]]] //.
Qed.


(* The identity itself: the eigenvalues np.linalg.eigvals returns for a
   square matrix add up to its trace. *)
Lemma eigvals_sum_trace (A : array) n :
  shape A = [:: n; n] ->
  np_linalg_eigvals A = Ok (roots_of (char_poly (mx_of n n A))) /\
  np_sum (roots_of (char_poly (mx_of n n A))) = np_trace A.
Proof.
move=> HA; rewrite /np_linalg_eigvals HA eqxx; split=> //.
by rewrite np_sumE sum_roots_char_poly (np_trace_square HA).
Qed.

(* --- the least eigenvalue --- *)

Import Order.Theory.

Lemma mem_roots_of (p : {poly K}) z :
  p != 0 -> (z \in roots_of p) = root p z.
Proof.
move=> p0; rewrite /roots_of; case: closed_field_poly_normal => r /= Hr.
by rewrite [in RHS]Hr rootZ ?lead_coef_eq0 // root_prod_XsubC.
Qed.

Lemma size_roots_char_poly n (M : 'M[K]_n) :
  size (roots_of (char_poly M)) = n.
Proof.
rewrite /roots_of; case: closed_field_poly_normal => r /= Hr.
move: (char_poly_monic M); rewrite monicE => /eqP Hlead.
rewrite Hlead scale1r in Hr.
by apply/eqP; rewrite -eqSS -(size_char_poly M) Hr size_prod_XsubC.
Qed.

Lemma mem_eigvals n (M : 'M[K]_n) z :
  (z \in roots_of (char_poly M)) = eigenvalue M z.
Proof.
rewrite mem_roots_of ?eigenvalue_root_char //.
by rewrite -size_poly_eq0 size_char_poly.
Qed.

(* The eigenvalues of a Hermitian matrix are real. *)
Lemma hermitian_eigenvalue_real n (A : 'M[K]_n) a :
  A \is hermsymmx -> eigenvalue A a -> a \is Num.real.
Proof.
move=> Ah /eigenvalueP[v vA v0].
have /hermitian_normalmx /orthomx_spectralP A_eq := Ah.
have sp_real := hermitian_spectral_diag_real Ah.
set P := spectralmx A in A_eq; set sp := spectral_diag A in A_eq sp_real.
have Pu : P \in unitmx by apply: spectral_unit.
have [w wD w0] : exists2 w : 'rV_n, w *m diag_mx sp = a *: w & w != 0.
  exists (v *m invmx P).
    have vA' : v *m (invmx P *m diag_mx sp *m P) = a *: v by rewrite -A_eq.
    by rewrite scalemxAl -vA' !mulmxA mulmxK.
  apply: contra v0 => /eqP Hw.
  by rewrite -[v](mulmxKV Pu) Hw mul0mx.
have [i Hi] : exists i, w 0 i != 0.
  apply/existsP; apply: contraR w0; rewrite negb_exists => /forallP H.
  apply/eqP; apply/rowP => j; rewrite [RHS]mxE; apply/eqP.
  by move: (H j); rewrite negbK.
have /rowP/(_ i) := wD; rewrite mul_mx_diag !mxE mulrC => Heq.
have <- : sp 0 i = a by apply: (mulIf Hi).
by move/mxOverP: sp_real; apply.
Qed.

Lemma real_symmetric_hermsym (A : array) n :
  shape A = [:: n; n] -> real_symmetric A -> mx_of n n A \is hermsymmx.
Proof.
move=> HA; rewrite /real_symmetric HA eqxx /= => /allP H.
have Hij (i j : 'I_n) :
    (item 0 A [:: (i : nat); (j : nat)] \is Num.real) &&
    (item 0 A [:: (i : nat); (j : nat)] == item 0 A [:: (j : nat); (i : nat)]).
  have := H (i : nat); rewrite mem_iota add0n leq0n ltn_ord => /(_ isT) /allP Hi.
  have := Hi (j : nat); rewrite mem_iota add0n leq0n ltn_ord; exact.
apply: realsym_hermsym.
  apply/is_hermitianmxP; rewrite expr0 scale1r; apply/matrixP => i j.
  by rewrite !mxE; case/andP: (Hij i j) => _ /eqP.
by apply/mxOverP => i j; rewrite mxE; case/andP: (Hij i j).
Qed.

(* On real numbers numpy's order is the usual one. *)
Lemma lex_le_real x y :
  x \is Num.real -> y \is Num.real -> lex_le x y = (x <= y).
Proof.
move=> xr yr; rewrite /lex_le (Creal_ReP _ xr) (Creal_ReP _ yr).
rewrite (Creal_ImP _ xr) (Creal_ImP _ yr) lexx andbT.
by rewrite le_eqVlt orbC.
Qed.

Lemma np_min_real x s :
  x \is Num.real -> all (fun z => z \is Num.real) s ->
  let m := foldl np_minimum x s in
  [/\ m \in x :: s, m \is Num.real & forall z, z \in x :: s -> m <= z].
Proof.
elim: s x => [|y s IH] x xr /=.
  by move=> _; split; rewrite ?mem_head // => z; rewrite inE => /eqP ->.
case/andP=> yr sr.
have mr : np_minimum x y \is Num.real by rewrite /np_minimum; case: ifP.
have [Hin Hr Hle] := IH _ mr sr; split=> //.
  move: Hin; rewrite !inE => /orP[/eqP ->|->]; last by rewrite !orbT.
  by rewrite /np_minimum; case: ifP; rewrite eqxx ?orbT.
have Hm : foldl np_minimum (np_minimum x y) s <= np_minimum x y.
  by apply: Hle; rewrite mem_head.
have [Hx Hy] : np_minimum x y <= x /\ np_minimum x y <= y.
  rewrite /np_minimum lex_le_real //; case: ifP => Hxy; split=> //.
  by move: (real_leVge xr yr); rewrite Hxy.
move=> z; rewrite !inE => /or3P[/eqP->|/eqP->|zs].
- exact: le_trans Hm Hx.
- exact: le_trans Hm Hy.
- by apply: Hle; rewrite inE zs orbT.
Qed.

(** X6 (exact arithmetic): for every S and C whose Fisher matrix
    F = S.dot(C).dot(S.T) is real and symmetric and has at least one row,
    fischer_mineigenval returns a real number: an eigenvalue of F that is
    less than or equal to every eigenvalue of F. *)
Theorem fischer_mineigenval_real_symmetric
  (fsm : FischerData K) (S_ C F_ : array) :
  fisher_matrix S_ C = Ok F_ -> real_symmetric F_ ->
  (0 < nth 0 (shape S_) 0)%N ->
  let M := mx_of (nth 0 (shape S_) 0)%N (nth 0 (shape S_) 0)%N F_ in
  exists2 v, fischer_mineigenval fsm S_ C = Ok v &
    [/\ v \is Num.real, eigenvalue M v & forall w, eigenvalue M w -> v <= w].
Proof.
move=> E Hsym; set n := nth _ _ _ => n0 M.
have HF : shape F_ = [:: n; n] := fisher_matrix_square E.
have Mh : M \is hermsymmx by apply: real_symmetric_hermsym.
rewrite /fischer_mineigenval E /= /np_linalg_eigvals HF eqxx /=.
rewrite -/M.
have Hreal : all (fun z => z \is Num.real) (roots_of (char_poly M)).
  by apply/allP => z; rewrite mem_eigvals; apply: hermitian_eigenvalue_real.
case Er : (roots_of (char_poly M)) (size_roots_char_poly M) Hreal
  => [|x s] /=; first by move=> Hn; rewrite -Hn in n0.
move=> _ /andP[xr sr].
have [Hin Hr Hle] := np_min_real xr sr.
exists (foldl np_minimum x s) => //; split=> //.
  by rewrite -mem_eigvals Er.
by move=> w; rewrite -mem_eigvals Er; apply: Hle.
Qed.

Lemma fisher_matrix_turn : fisher_matrix S_plane C_turn = Ok C_turn.
Proof.
rewrite /fisher_matrix /np_dot /= /tabulate /= /item /=.
by rewrite !(mul0r, mulr0, mul1r, mulr1, addr0, add0r).
Qed.

Lemma eigenvalue_turn z :
  eigenvalue (mx_of 2 2 C_turn) z -> (z == 'i) || (z == - 'i).
Proof.
case/eigenvalueP=> v Hv v0.
have H0 : v 0 (lift ord0 ord0) = z * v 0 ord0.
  move/rowP/(_ ord0): Hv; rewrite !mxE !big_ord_recl big_ord0 !mxE /= /item /=.
  by rewrite mulr0 mulr1 add0r addr0.
have H1 : - v 0 ord0 = z * v 0 (lift ord0 ord0).
  move/rowP/(_ (lift ord0 ord0)): Hv.
  rewrite !mxE !big_ord_recl big_ord0 !mxE /= /item /=.
  by rewrite mulr0 mulrN1 !addr0.
have a0 : v 0 ord0 != 0.
  apply: contra v0 => /eqP Ha; apply/eqP/rowP => j; rewrite mxE.
  case: (unliftP ord0 j) => [j' ->|->] //.
  by rewrite (ord1 j') H0 Ha mulr0.
have : z ^+ 2 == 'i ^+ 2.
  rewrite sqrCi -(inj_eq (mulIf a0)) mulN1r expr2 -mulrA -H0 -H1.
  by [].
by rewrite eqf_sqr.
Qed.


(** X7: without symmetry the result can be complex, and no real part is
    taken: for S the 2-by-2 identity and C = [[0, -1], [1, 0]], whose
    eigenvalues are i and -i, fischer_mineigenval returns -i (the least in
    numpy's order: by real part, then by imaginary part). *)
Theorem fischer_mineigenval_turn (fsm : FischerData K) :
  fischer_mineigenval fsm S_plane C_turn = Ok (- 'i) /\
  (- 'i : K) \isn't Num.real.
Proof.
split; last by rewrite rpredN nonRealCi.
rewrite /fischer_mineigenval fisher_matrix_turn /=.
set M := mx_of 2 2 C_turn.
have Hsz := size_roots_char_poly M.
have Hsum := sum_roots_char_poly M.
have Hmem z : z \in roots_of (char_poly M) -> (z == 'i) || (z == - 'i).
  by rewrite mem_eigvals; apply: eigenvalue_turn.
have trM : \tr M = 0.
  by rewrite /mxtrace !big_ord_recl big_ord0 !mxE /= /item /= !addr0.
case: (roots_of _) Hsz Hsum Hmem => [|z1 [|z2 [|? ?]]] //= _.
rewrite !big_cons big_nil addr0 trM => /eqP; rewrite addr_eq0 => /eqP -> Hmem.
have ReNi : 'Re (- 'i : K) = 0 by rewrite raddfN /= Re_i oppr0.
have ImNi : 'Im (- 'i : K) = -1 by rewrite raddfN /= Im_i.
have le1N1 : (1 <= -1 :> K) = false.
  by rewrite -subr_ge0 -opprD oppr_ge0 -(natrD _ 1 1) lern0.
have leN11 : (-1 <= 1 :> K) by rewrite -subr_ge0 opprK -(natrD _ 1 1) ler0n.
rewrite /np_minimum /lex_le.
have /Hmem/orP[/eqP ->|/eqP ->] : z2 \in [:: - z2; z2] by rewrite !inE eqxx orbT.
  by rewrite ReNi Re_i ImNi Im_i ltxx eqxx leN11.
by rewrite opprK ReNi Re_i ImNi Im_i ltxx eqxx le1N1.
Qed.

End Criteria.

(* --------------------------------------------------------------------- *)
(*  numpy arrays: what the indexing operations return                     *)
(* --------------------------------------------------------------------- *)

Section ArrayShapes.

Variable T : Type.
Variable zero : T.
Notation array := (ndarray T).

Lemma getitem_prefix_ok (A : array) ix :
  (size ix <= ndim A)%N -> in_shape (take (size ix) (shape A)) ix ->
  exists2 R, getitem_prefix zero A ix = Ok R
           & shape R = drop (size ix) (shape A) /\ well_formed R.
Proof.
move=> H1 H2; rewrite /getitem_prefix H1 H2 /=.
by eexists; first by []; split=> //; apply: wf_tabulate.
Qed.

Lemma drop_first_col_ok (A : array) a b rest :
  shape A = a :: b :: rest ->
  exists2 R, drop_first_col zero A = Ok R
           & shape R = a :: b.-1 :: rest /\ well_formed R.
Proof.
move=> HA; rewrite /drop_first_col HA.
by eexists; first by []; split=> //; apply: wf_tabulate.
Qed.

Lemma drop_first_ok (A : array) a rest :
  shape A = a :: rest ->
  exists2 R, drop_first zero A = Ok R
           & shape R = a.-1 :: rest /\ well_formed R.
Proof.
move=> HA; rewrite /drop_first HA.
by eexists; first by []; split=> //; apply: wf_tabulate.
Qed.

Lemma broadcastable_refl sh : broadcastable sh sh.
Proof.
rewrite /broadcastable leqnn subnn drop0 /=.
by elim: sh => [|k sh IH] //=; rewrite eqxx IH.
Qed.

Lemma setitem_slice2_ok (A V : array) a b rest index :
  shape A = a :: b :: rest -> in_shape rest index -> shape V = [:: a; b] ->
  exists2 R, setitem_slice2 zero A index V = Ok R
           & shape R = shape A /\ well_formed R.
Proof.
move=> HA Hix HV; rewrite /setitem_slice2 HA Hix /broadcast_to HV.
rewrite broadcastable_refl bind_Ok.
by eexists; first by []; split=> //; apply: wf_tabulate.
Qed.

(* A[:, index] = V for a column V and an index of two entries: possible
   only when the column has one or two rows. *)
Lemma setitem_take1_column (A V : array) a k k' i j :
  shape A = [:: a; k; k'] -> (i < k)%N -> (j < k)%N ->
  shape V = [:: a; 1%N] -> a != 1%N -> a != 2%N ->
  setitem_take1 zero A [:: i; j] V = Raise ValueError.
Proof.
move=> HA Hi Hj HV /negbTE H1 /negbTE H2.
by rewrite /setitem_take1 HA /= Hi Hj /= /broadcast_to /broadcastable HV /= H2 H1.
Qed.

End ArrayShapes.

(* --------------------------------------------------------------------- *)
(*  src/solving.py: get_S_matrix at the edges of its input                *)
(* --------------------------------------------------------------------- *)

Section SolvingEdges.

Variable F : numFieldType.
Variable odeint :
  ode_callable F -> seq F -> seq F -> seq F * seq F * seq F ->
  ode_callable F -> ndarray F.

Notation array := (ndarray F).

Lemma product_empty ks : 0%N \in ks -> product ks = [::].
Proof.
by move=> H; apply: size0nil; rewrite size_product /prod_shape;
   elim: ks H => [|k ks IH] //=; rewrite inE => /orP [/eqP <-|/IH ->];
   rewrite ?mul0n ?muln0.
Qed.

Lemma prod_shape_zero ks : 0%N \in ks -> prod_shape ks = 0%N.
Proof. by move=> /product_empty H; rewrite -size_product H. Qed.

(* An input without values: the loop is not entered. *)
Lemma get_S_matrix_empty_grid (fsm : FischerData F) :
  shape (times fsm) <> [::] ->
  0%N \in [seq size q | q <- q_values fsm] ->
  get_S_matrix odeint fsm =
  Ok (NdArray [:: size (parameters fsm); 0%N] [::],
      NdArray [:: 0%N; 0%N] [::], [::]).
Proof.
move=> Ht H0.
have Hp := prod_shape_zero H0.
set ks := [seq size q | q <- q_values fsm] in H0 Hp.
set n_t := last 0%N (shape (times fsm)).
have Hz sh : prod_shape sh = 0%N -> np_zeros (0 : F) sh = NdArray sh [::].
  by rewrite /np_zeros => ->.
have HS : prod_shape [:: size (parameters fsm), n_t & ks] = 0%N.
  by rewrite /prod_shape /= -/(prod_shape ks) Hp !muln0.
have HE : prod_shape (n_t :: ks) = 0%N.
  by rewrite /prod_shape /= -/(prod_shape ks) Hp !muln0.
have Hloop : foldM (get_S_matrix_body odeint fsm)
    (np_zeros 0 [:: size (parameters fsm), n_t & ks],
     np_zeros 0 (n_t :: ks), [::]) (product ks) =
    Ok (NdArray [:: size (parameters fsm), n_t & ks] [::],
        NdArray (n_t :: ks) [::], [::]).
  by rewrite product_empty // (Hz _ HS) (Hz _ HE).
have HwS : well_formed (NdArray [:: size (parameters fsm), n_t & ks] ([::] : seq F)).
  by rewrite /well_formed [prod_shape _]HS.
have HwE : well_formed (NdArray (n_t :: ks) ([::] : seq F)).
  by rewrite /well_formed [prod_shape _]HE.
rewrite (get_S_matrix_finish Ht Hloop HwS HwE).
  by rewrite [LHS]HS [prod_shape _]HE muln0.
by rewrite [prod_shape _]HE.
Qed.


Lemma determinant_no_samples (fsm : FischerData F) n :
  (0 < n)%N ->
  fischer_determinant fsm (NdArray [:: n; 0%N] [::]) (NdArray [:: 0%N; 0%N] [::])
  = Ok 0.
Proof.
case: n => // n _.
rewrite /fischer_determinant /fisher_matrix /np_dot /= /np_linalg_det /= eqxx.
congr Ok; set M := mx_of _ _ _.
have -> : M = 0; last exact: det0.
by apply/matrixP => i j; rewrite !mxE item_tabulate //= !ltn_ord.
Qed.

(* No inputs at all: error_n is 1-D and error_n[:, index] has one index too
   many. *)
Lemma get_S_matrix_no_inputs (fsm : FischerData F) :
  q_values fsm = [::] -> raises (get_S_matrix odeint fsm).
Proof.
move=> Hq; rewrite /get_S_matrix Hq /=.
case: (shape (times fsm)) => [|a sh] //.
rewrite /get_S_matrix_body; cbv zeta.
case: (getitem_prefix _ _ _) => [t|] //; rewrite !bind_Ok.
case: (drop_first_col _ _) => [r|] //; rewrite !bind_Ok.
case: (drop_first _ _) => [?|] //; rewrite bind_Ok.
case: (setitem_slice2 _ _ _ _) => [?|] //; rewrite bind_Ok.
case: (getitem_prefix _ _ _) => [?|] //; rewrite bind_Ok.
by case: (reshape _ _) => [?|].
Qed.

(** X8: when some input has no values (and fsm.times has at least one
    axis) the loop is not entered and the integrator is never called:
    get_S_matrix returns S with no columns, a 0-by-0 C and no solutions,
    and the determinant criterion of this empty design is 0 for every
    model with at least one parameter. *)
Theorem empty_grid_design (fsm : FischerData F) :
  shape (times fsm) <> [::] ->
  0%N \in [seq size q | q <- q_values fsm] ->
  (0 < size (parameters fsm))%N ->
  let S_ := NdArray [:: size (parameters fsm); 0%N] [::] in
  let C := NdArray [:: 0%N; 0%N] [::] in
  get_S_matrix odeint fsm = Ok (S_, C, [::]) /\
  fischer_determinant fsm S_ C = Ok 0.
Proof.
move=> Ht H0 Hp; split; first exact: get_S_matrix_empty_grid.
exact: determinant_no_samples.
Qed.

(** X9: a model without inputs (q_values empty) cannot be evaluated:
    get_S_matrix raises on every such model, at the latest at
    error_n[:, index], where the 1-D error_n is given two indices. *)
Theorem no_inputs_raise (fsm : FischerData F) :
  q_values fsm = [::] -> raises (get_S_matrix odeint fsm).
Proof. exact: get_S_matrix_no_inputs. Qed.

End SolvingEdges.

Section TwoInputs.

Variable F : numFieldType.
Variable odeint :
  ode_callable F -> seq F -> seq F -> seq F * seq F * seq F ->
  ode_callable F -> ndarray F.

Hypothesis odeint_shape : forall f y0 t args J,
  shape (odeint f y0 t args J) = [:: size t; size y0].

Variable fsm : FischerData F.
Variables (q1 q2 : seq F) (n_t : nat).

Hypothesis Hq : q_values fsm = [:: q1; q2].
Hypothesis Htimes : shape (times fsm) = [:: size q1; size q2; n_t].
Hypothesis Hy0 : size (y0_t0 fsm).1 = (size (parameters fsm)).+1.
Hypothesis Hq1 : (0 < size q1)%N.
Hypothesis Hq2 : (0 < size q2)%N.

Lemma two_inputs_first_pass (S_ E : ndarray F) sols :
  shape S_ = [:: size (parameters fsm); n_t; size q1; size q2] ->
  shape E = [:: n_t; size q1; size q2] ->
  n_t != 1%N -> n_t != 2%N ->
  get_S_matrix_body odeint fsm (S_, E, sols) [:: 0%N; 0%N] = Raise ValueError.
Proof.
move=> HS HE H1 H2.
rewrite /get_S_matrix_body; cbv zeta.
have Hnd : (size [:: 0%N; 0%N] <= ndim (times fsm))%N by rewrite /ndim Htimes.
have Hix : in_shape (take (size [:: 0%N; 0%N]) (shape (times fsm))) [:: 0%N; 0%N].
  by rewrite Htimes /= Hq1 Hq2.
have [t -> [Ht /eqP Hwt]] := getitem_prefix_ok 0 Hnd Hix.
rewrite bind_Ok.
have Hsz : size (data t) = n_t.
  by rewrite Hwt Ht Htimes /= /prod_shape /= muln1.
set od := odeint _ _ _ _ _.
have Hod : shape (transpose 0 od) = [:: (size (parameters fsm)).+1; n_t.+1].
  by rewrite /transpose /od odeint_shape /= Hsz Hy0.
have [r -> [Hr _]] := drop_first_col_ok 0 Hod.
rewrite bind_Ok.
have [rs -> [Hrs _]] := drop_first_ok 0 Hr.
rewrite bind_Ok.
have Hin : in_shape [:: size q1; size q2] [:: 0%N; 0%N] by rewrite /= Hq1 Hq2.
have [S1 -> _] := setitem_slice2_ok 0 HS Hin Hrs.
rewrite bind_Ok.
have Hnd0 : (size [:: 0%N] <= ndim r)%N by rewrite /ndim Hr.
have Hix0 : in_shape (take (size [:: 0%N]) (shape r)) [:: 0%N] by rewrite Hr.
have [r0 -> [Hr0 /eqP Hw0]] := getitem_prefix_ok 0 Hnd0 Hix0.
rewrite bind_Ok /reshape Hw0 Hr0 Hr Htimes /= /prod_shape /= !muln1 eqxx bind_Ok.
by rewrite (@setitem_take1_column _ 0 _ _ n_t (size q1) (size q2)).
Qed.

(** X10: with two inputs, both with at least one value, and a number of
    measurement times other than 1 and 2, get_S_matrix raises ValueError in
    the first pass of its loop: the column of n_t errors cannot be
    broadcast to the selection error_n[:, index] of shape (n_t, 2, k2). *)
Theorem two_inputs_many_times :
  n_t != 1%N -> n_t != 2%N -> get_S_matrix odeint fsm = Raise ValueError.
Proof.
move=> H1 H2; rewrite /get_S_matrix Htimes Hq.
have [rest ->] : exists rest,
    product [seq size q | q <- [:: q1; q2]] = [:: 0%N; 0%N] :: rest.
  rewrite /=; case: (size q1) Hq1 => // k1 _; case: (size q2) Hq2 => // k2 _.
  by eexists; rewrite /=; reflexivity.
by rewrite foldM_cons two_inputs_first_pass.
Qed.

End TwoInputs.


(* --------------------------------------------------------------------- *)
(*  src/solving.py: the Fisher matrix and how the criteria relate         *)
(* --------------------------------------------------------------------- *)

Section FisherAlgebra.

Variable F : numFieldType.
Notation array := (ndarray F).

Lemma foldr_sum (a : nat -> F) l :
  foldr (fun j acc => a j + acc) 0 (iota 0 l) = \sum_(j < l) a j.
Proof.
rewrite -(big_mkord xpredT a) /index_iota subn0.
by elim: (iota 0 l) => [|i s IH] /=; rewrite ?big_nil ?big_cons ?IH.
Qed.

(* A.dot(B) is the matrix product. *)
Lemma np_dot_mulmx (A B : array) n l m :
  shape A = [:: n; l] -> shape B = [:: l; m] ->
  exists2 D, np_dot 0 +%R *%R A B = Ok D
           & shape D = [:: n; m] /\ mx_of n m D = mx_of n l A *m mx_of l m B.
Proof.
move=> HA HB; rewrite /np_dot HA HB eqxx; eexists; first by [].
split=> //; apply/matrixP => i j; rewrite !mxE item_tabulate /= ?ltn_ord //.
by rewrite foldr_sum; apply: eq_bigr => k _; rewrite !mxE.
Qed.

Lemma mx_of_transpose (A : array) n m :
  shape A = [:: n; m] ->
  shape (transpose 0 A) = [:: m; n] /\
  mx_of m n (transpose 0 A) = (mx_of n m A)^T.
Proof.
move=> HA; rewrite /transpose HA; split=> //.
by apply/matrixP => i j; rewrite !mxE item_tabulate /= ?ltn_ord.
Qed.

(* The Fisher matrix as a matrix product. *)
Lemma fisher_matrix_mulmx (S_ C : array) n N :
  shape S_ = [:: n; N] -> shape C = [:: N; N] ->
  exists2 F_, fisher_matrix S_ C = Ok F_
            & shape F_ = [:: n; n] /\
              mx_of n n F_ = mx_of n N S_ *m mx_of N N C *m (mx_of n N S_)^T.
Proof.
move=> HS HC; rewrite /fisher_matrix.
have [SC -> [HSC HM1]] := np_dot_mulmx HS HC; rewrite bind_Ok.
have [HT HM2] := mx_of_transpose HS.
have [F_ -> [HF HM3]] := np_dot_mulmx HSC HT.
by exists F_ => //; split=> //; rewrite HM3 HM1 HM2.
Qed.

(* When the shapes of S and C do not fit, no criterion is computed. *)
Lemma fisher_matrix_mismatch (S_ C : array) n N N1 N2 :
  shape S_ = [:: n; N] -> shape C = [:: N1; N2] -> (N != N1) || (N1 != N2) ->
  fisher_matrix S_ C = Raise ValueError.
Proof.
move=> HS HC; rewrite /fisher_matrix /np_dot HS HC.
case: (N =P N1) => [<-|] //= HN.
by rewrite /transpose HS /= eq_sym (negbTE HN).
Qed.

(** X11: the Fisher matrix F = S.dot(C).dot(S.T) of an n-by-N array S and
    an N-by-N array C is symmetric whenever C is symmetric. *)
Theorem fisher_matrix_symmetric (S_ C F_ : array) n N :
  shape S_ = [:: n; N] -> shape C = [:: N; N] ->
  (forall i j, (i < N)%N -> (j < N)%N ->
     item 0 C [:: i; j] = item 0 C [:: j; i]) ->
  fisher_matrix S_ C = Ok F_ ->
  forall i j, (i < n)%N -> (j < n)%N ->
    item 0 F_ [:: i; j] = item 0 F_ [:: j; i].
Proof.
move=> HS HC Hsym.
have [F' -> [HF HM]] := fisher_matrix_mulmx HS HC => -[<-] i j Hi Hj.
have HCt : (mx_of N N C)^T = mx_of N N C.
  by apply/matrixP => a b; rewrite !mxE Hsym.
have : (mx_of n n F')^T = mx_of n n F'.
  by rewrite HM !trmx_mul trmxK HCt mulmxA.
by move/matrixP/(_ (Ordinal Hj) (Ordinal Hi)); rewrite !mxE.
Qed.

End FisherAlgebra.

Section CriteriaRelations.

Variable K : numClosedFieldType.
Notation array := (ndarray K).

(* np.prod over a list *)
Definition np_prod (s : seq K) : K := foldr *%R 1 s.

Lemma prod_roots_char_poly n (M : 'M[K]_n) :
  \prod_(z <- roots_of (char_poly M)) z = \det M.
Proof.
have Hsz := size_roots_char_poly M.
move: Hsz; rewrite /roots_of; case: closed_field_poly_normal => r /= Hr Hsz.
move: (char_poly_monic M); rewrite monicE => /eqP Hlead.
rewrite Hlead scale1r in Hr.
have := char_poly_det M; rewrite -horner_coef0 Hr horner_prod.
have -> : \prod_(z <- r) ('X - z%:P).[0] = (-1) ^+ size r * \prod_(z <- r) z.
  elim: (r) => [|z s IH]; first by rewrite !big_nil expr0 mulr1.
  rewrite big_cons [in RHS]big_cons IH hornerXsubC sub0r /= exprS.
  by rewrite mulNr -!mulrA mulN1r [z * _]mulrCA.
rewrite Hsz => /mulfI; apply.
by rewrite expf_neq0 // oppr_eq0 oner_eq0.
Qed.

Lemma np_prodE (s : seq K) : np_prod s = \prod_(z <- s) z.
Proof.
by rewrite /np_prod; elim: s => [|x s IH] /=; rewrite ?big_nil ?big_cons ?IH.
Qed.

Lemma fischer_determinant_roots (fsm : FischerData K) (S_ C : array) :
  fischer_determinant fsm S_ C =
  (let! F_ := fisher_matrix S_ C in
   let! ev := np_linalg_eigvals F_ in
   Ok (np_prod ev)).
Proof.
rewrite /fischer_determinant; case E: (fisher_matrix S_ C) => [F_|e] //=.
have HF := fisher_matrix_square E.
rewrite /np_linalg_det /np_linalg_eigvals HF eqxx /=.
by rewrite np_prodE prod_roots_char_poly.
Qed.

(** X13: the determinant criterion is the product of the eigenvalues that
    the two eigenvalue criteria sum and minimise:
    fischer_determinant(fsm, S, C) = np.prod(np.linalg.eigvals(F)) for
    every S and C, with the same ValueError when their shapes do not
    fit. *)
Theorem fischer_determinant_eigvals (fsm : FischerData K) (S_ C : array) :
  fischer_determinant fsm S_ C =
  (let! F_ := fisher_matrix S_ C in
   let! ev := np_linalg_eigvals F_ in
   Ok (np_prod ev)).
Proof. exact: fischer_determinant_roots. Qed.

(** X12: when C is not an N-by-N array for the N columns of S, none of the
    three criteria is computed: each raises ValueError. *)
Theorem criteria_shape_mismatch (fsm : FischerData K) (S_ C : array)
  n N N1 N2 :
  shape S_ = [:: n; N] -> shape C = [:: N1; N2] -> (N != N1) || (N1 != N2) ->
  [/\ fischer_determinant fsm S_ C = Raise ValueError,
      fischer_sumeigenval fsm S_ C = Raise ValueError
    & fischer_mineigenval fsm S_ C = Raise ValueError].
Proof.
move=> HS HC H.
rewrite /fischer_determinant /fischer_sumeigenval /fischer_mineigenval.
by rewrite (fisher_matrix_mismatch HS HC H).
Qed.

(* The only eigenvalue of a 1-by-1 matrix is its entry. *)
Lemma roots_char_poly1 (M : 'M[K]_1) : roots_of (char_poly M) = [:: M 0 0].
Proof.
have := size_roots_char_poly M; have := sum_roots_char_poly M.
case: (roots_of _) => [|z [|? ?]] //=.
by rewrite big_cons big_nil addr0 /mxtrace big_ord_recl big_ord0 addr0 => ->.
Qed.

(** X14: for a model with one parameter the three criteria coincide: the
    determinant, the sum of the eigenvalues and the least eigenvalue all
    equal the single entry of the 1-by-1 Fisher matrix. *)
Theorem one_parameter_criteria (fsm : FischerData K) (S_ C F_ : array) :
  fisher_matrix S_ C = Ok F_ -> nth 0%N (shape S_) 0 = 1%N ->
  [/\ fischer_determinant fsm S_ C = Ok (item 0 F_ [:: 0%N; 0%N]),
      fischer_sumeigenval fsm S_ C = Ok (item 0 F_ [:: 0%N; 0%N])
    & fischer_mineigenval fsm S_ C = Ok (item 0 F_ [:: 0%N; 0%N])].
Proof.
move=> E H1; have := fisher_matrix_square E; rewrite H1 => HF.
rewrite /fischer_determinant /fischer_sumeigenval /fischer_mineigenval E /=.
rewrite /np_linalg_det /np_linalg_eigvals HF /= roots_char_poly1 /= det_mx11.
by rewrite addr0 !mxE.
Qed.

End CriteriaRelations.

Section Psd.

Import Order.Theory.

Variable K : numClosedFieldType.
Notation array := (ndarray K).
Local Open Scope sesquilinear_scope.

Lemma sqnorm_row n (v : 'rV[K]_n) :
  (v *m v^t*) 0 0 = \sum_i `|v 0 i| ^+ 2.
Proof. by rewrite mxE; apply: eq_bigr => i _; rewrite !mxE normCK. Qed.

Lemma psd_eigenvalue n N (Sm : 'M[K]_(n, N)) (c : 'rV[K]_N) a :
  Sm \is a realmx -> (forall i, 0 <= c 0 i) ->
  eigenvalue (Sm *m diag_mx c *m Sm^T) a -> 0 <= a.
Proof.
move=> Sr cpos /eigenvalueP [v Hv v0].
pose u := v *m Sm.
have HT : Sm^T *m v^t* = u^t*.
  rewrite /u trmx_mul map_mxM; congr (_ *m _).
  apply/matrixP => i j; rewrite !mxE; apply/esym/CrealP.
  by move/mxOverP: Sr; apply.
have Hq : (v *m (Sm *m diag_mx c *m Sm^T) *m v^t*) 0 0 =
          \sum_i c 0 i * `|u 0 i| ^+ 2.
  rewrite !mulmxA -/u -mulmxA HT mul_mx_diag mxE; apply: eq_bigr => i _.
  by rewrite !mxE normCK mulrAC mulrC mulrA.
have Hpos : 0 < \sum_i `|v 0 i| ^+ 2.
  have Hge (i : 'I_n) : true -> 0 <= `|v 0 i| ^+ 2 by rewrite exprn_ge0.
  rewrite lt_neqAle sumr_ge0 // andbT eq_sym psumr_eq0 //.
  apply: contra v0 => /allP H; apply/eqP/rowP => i; rewrite mxE.
  by have := H i (mem_index_enum _); rewrite /= expf_eq0 /= normr_eq0 => /eqP.
move: Hq; rewrite Hv -scalemxAl mxE sqnorm_row => Hq.
rewrite -(pmulr_lge0 _ Hpos) Hq sumr_ge0 // => i _.
by rewrite mulr_ge0 ?exprn_ge0.
Qed.


(* C is diagonal with non-negative entries: the identity that
   calculate_fischer_observable passes by default, or the inverse of a
   diagonal covariance. *)
Definition nonneg_diagonal (C : array) : bool :=
  if shape C is [:: N; M] then
    (N == M) &&
    all (fun i => all (fun j => if i == j then 0 <= item 0 C [:: i; j]
                                else item 0 C [:: i; j] == 0)
                      (iota 0 N)) (iota 0 N)
  else false.

(* Every entry of the 2-D array S is a real number. *)
Definition real_entries (S_ : array) : bool :=
  all (fun i => all (fun j => item 0 S_ [:: i; j] \is Num.real)
                    (iota 0 (nth 0%N (shape S_) 1)))
      (iota 0 (nth 0%N (shape S_) 0)).

Lemma fisher_matrix_psd (S_ C : array) n N :
  shape S_ = [:: n; N] -> shape C = [:: N; N] ->
  real_entries S_ -> nonneg_diagonal C ->
  exists2 F_, fisher_matrix S_ C = Ok F_
            & shape F_ = [:: n; n] /\
              forall a, eigenvalue (mx_of n n F_) a -> 0 <= a.
Proof.
move=> HS HC Hreal Hdiag.
have [F_ E [HF HM]] := fisher_matrix_mulmx HS HC.
exists F_ => //; split=> // a; rewrite HM.
have Sr : mx_of n N S_ \is a realmx.
  apply/mxOverP => i j; rewrite mxE.
  move: Hreal; rewrite /real_entries HS /= => /allP /(_ (i : nat)).
  rewrite mem_iota add0n leq0n ltn_ord => /(_ isT) /allP /(_ (j : nat)).
  by rewrite mem_iota add0n leq0n ltn_ord; apply.
have Cij (i j : 'I_N) : if (i : nat) == j then 0 <= item 0 C [:: (i : nat); (j : nat)]
                        else item 0 C [:: (i : nat); (j : nat)] == 0.
  move: Hdiag; rewrite /nonneg_diagonal HC eqxx /= => /allP /(_ (i : nat)).
  rewrite mem_iota add0n leq0n ltn_ord => /(_ isT) /allP /(_ (j : nat)).
  by rewrite mem_iota add0n leq0n ltn_ord; apply.
have -> : mx_of N N C = diag_mx (\row_i item 0 C [:: (i : nat); (i : nat)]).
  apply/matrixP => i j; rewrite !mxE -val_eqE /=.
  by have := Cij i j; case: eqP => [->|_ /eqP ->]; rewrite ?mulr1n ?mulr0n.
apply: psd_eigenvalue => // i; rewrite mxE.
by have := Cij i i; rewrite eqxx.
Qed.

Lemma np_prod_ge0 (s : seq K) : all (fun z => 0 <= z) s -> 0 <= np_prod s.
Proof. by elim: s => [|x s IH] //= /andP [Hx /IH Hs]; rewrite mulr_ge0. Qed.

Lemma np_sum_ge0 (s : seq K) : all (fun z => 0 <= z) s -> 0 <= np_sum s.
Proof. by elim: s => [|x s IH] //= /andP [Hx /IH Hs]; rewrite addr_ge0. Qed.

(** X15: for every S with real entries and every C that is diagonal with
    non-negative entries (the identity that calculate_fischer_observable
    passes by default, or the C of get_S_matrix), the Fisher matrix is
    positive semidefinite: with at least one parameter, the three criteria
    return, and the determinant, the sum of the eigenvalues and the least
    eigenvalue are all non-negative. *)
Theorem criteria_nonnegative (fsm : FischerData K) (S_ C : array) n N :
  shape S_ = [:: n; N] -> shape C = [:: N; N] -> (0 < n)%N ->
  real_entries S_ -> nonneg_diagonal C ->
  exists d s m,
    [/\ fischer_determinant fsm S_ C = Ok d,
        fischer_sumeigenval fsm S_ C = Ok s,
        fischer_mineigenval fsm S_ C = Ok m
      & [/\ 0 <= d, 0 <= s & 0 <= m]].
Proof.
move=> HS HC n0 Hreal Hdiag.
have [F_ E [HF Hpsd]] := fisher_matrix_psd HS HC Hreal Hdiag.
rewrite fischer_determinant_roots /fischer_sumeigenval /fischer_mineigenval.
rewrite E /= /np_linalg_eigvals HF eqxx /=.
set M := mx_of n n F_ in Hpsd *.
have Hall : all (fun z => 0 <= z) (roots_of (char_poly M)).
  by apply/allP => z; rewrite mem_eigvals; apply: Hpsd.
case Er : (roots_of (char_poly M)) (size_roots_char_poly M) Hall
  => [|x r] /=; first by move=> Hn; rewrite -Hn in n0.
move=> _ /andP [x0 r0].
have rr : all (fun z => z \is Num.real) r.
  by apply/allP => z /(allP r0); apply: ger0_real.
have [Hin _ _] := np_min_real (ger0_real x0) rr.
do 3!eexists; split; [by [] | by [] | by [] |].
split.
- by apply: (@np_prod_ge0 (x :: r)); rewrite /= x0.
- by apply: (@np_sum_ge0 (x :: r)); rewrite /= x0.
- by move: Hin; rewrite inE => /orP [/eqP ->|/(allP r0)].
Qed.

End Psd.


(* --------------------------------------------------------------------- *)
(*  src/solving.py: calculate_fischer_observable on a single input        *)
(* --------------------------------------------------------------------- *)

Section DefaultScore.

Variable F : numFieldType.
Variable odeint :
  ode_callable F -> seq F -> seq F -> seq F * seq F * seq F ->
  ode_callable F -> ndarray F.

Hypothesis odeint_shape : forall f y0 t args J,
  shape (odeint f y0 t args J) = [:: size t; size y0].

Variable V : Type.
Variable fsm : FischerModel F V.
Variable q : seq F.
Variable n_t : nat.

Hypothesis Hq : q_values fsm = [:: q].
Hypothesis Htimes : shape (times fsm) = [:: size q; n_t].
Hypothesis Hy0 : size (y0_t0 fsm).1 = (size (parameters fsm)).+1.

(** X16: on a single input dimension, a predicted value that is exactly
    zero makes calculate_fischer_observable raise LinAlgError whatever
    covar is: with the default covar=False the matrix C is discarded, but
    it is computed (and inverted) first. *)
Theorem zero_prediction_default_score c t covar :
  (c < size q)%N -> (t < n_t)%N -> predicted odeint fsm c t = 0 ->
  calculate_fischer_observable odeint fsm covar = Raise LinAlgError.
Proof.
move=> Hc Ht H0; rewrite /calculate_fischer_observable.
by rewrite (get_S_matrix_single_singular odeint_shape Hq Htimes Hy0 Hc Ht H0).
Qed.

End DefaultScore.

Section OneParameterScore.

Variable F : numFieldType.
Variable odeint :
  ode_callable F -> seq F -> seq F -> seq F * seq F * seq F ->
  ode_callable F -> ndarray F.

Hypothesis odeint_shape : forall f y0 t args J,
  shape (odeint f y0 t args J) = [:: size t; size y0].

Variable fsm : FischerModel F F.
Variable q : seq F.
Variable n_t : nat.

Hypothesis Hq : q_values fsm = [:: q].
Hypothesis Htimes : shape (times fsm) = [:: size q; n_t].
Hypothesis Hp : size (parameters fsm) = 1%N.
Hypothesis Hy0 : size (y0_t0 fsm).1 = 2%N.
Hypothesis Hobs : observable fsm = @fischer_determinant F.

(* ds/dp of the sample of input value c at its t-th time. *)
Definition sensitivity_at (c t : nat) : F :=
  item 0 (integrate_at odeint fsm [:: c]) [:: t.+1; 1%N].

Lemma mx_of_eye n : mx_of n n (np_eye F n n) = 1%:M.
Proof.
by apply/matrixP => i j; rewrite !mxE item_tabulate /= ?ltn_ord.
Qed.

(** X17: for a model with one parameter and one input dimension, scored by
    fischer_determinant, with nonzero predicted values:
    calculate_fischer_observable returns, with the default covar=False,
    the sum over all samples of the squared sensitivity ds/dp, and with
    covar=True the sum of the squared sensitivities each divided by
    (0.25 * predicted value) ** 2. *)
Theorem one_parameter_scores :
  (forall c t, (c < size q)%N -> (t < n_t)%N -> predicted odeint fsm c t != 0) ->
  exists S_ C sols,
    [/\ get_S_matrix odeint fsm = Ok (S_, C, sols),
        calculate_fischer_observable odeint fsm false =
        Ok (\sum_(j < n_t * size q)
              sensitivity_at (j %% size q) (j %/ size q) ^+ 2,
            fsm, S_, np_eye F (n_t * size q) (n_t * size q), sols)
      & calculate_fischer_observable odeint fsm true =
        Ok (\sum_(j < n_t * size q)
              sensitivity_at (j %% size q) (j %/ size q) ^+ 2 /
              (quarter F * predicted odeint fsm (j %% size q) (j %/ size q)) ^+ 2,
            fsm, S_, C, sols)].
Proof.
move=> Hnz; rewrite /calculate_fischer_observable.
have Hy0' : size (y0_t0 fsm).1 = (size (parameters fsm)).+1 by rewrite Hp.
rewrite (get_S_matrix_single_ok odeint_shape Hq Htimes Hy0' Hnz) !bind_Ok.
rewrite eqxx [true == false]/= Hobs /fischer_determinant [nth _ _ _]/=.
set S_ := NdArray _ _; set N := (n_t * size q)%N; set C := tabulate _ _.
have HS : shape S_ = [:: 1%N; N] by rewrite /S_ Hp.
have HI : shape (np_eye F N N) = [:: N; N] by [].
have HC : shape C = [:: N; N] by [].
have Hcol (j : 'I_N) :
    mx_of 1 N S_ 0 j = sensitivity_at (j %% size q) (j %/ size q).
  have Hj : (j < n_t * size q)%N by exact: ltn_ord.
  have Hk : (0 < size q)%N by move: Hj; case: (size q) => //; rewrite muln0.
  rewrite mxE /sensitivity_at {1}(divn_eq j (size q)) /S_ Hp.
  have := @S_single_column _ odeint _ _ _ Htimes Hy0' 0
            (j %/ size q) (j %% size q).
  by rewrite Hp; apply; rewrite ?ltn_mod // ltn_divLR // mulnC.
have [F1 -> [HF1 HM1]] := fisher_matrix_mulmx HS HI.
have [F2 -> [HF2 HM2]] := fisher_matrix_mulmx HS HC.
rewrite !bind_Ok /np_linalg_det HF1 HF2 eqxx.
exists S_, C, (solutions_upto odeint fsm (size q)); split=> //.
  congr (Ok (_, _, _, _, _)).
  rewrite det_mx11 HM1 mx_of_eye mulmx1 mxE.
  by apply: eq_bigr => j _; rewrite [_^T _ _]mxE Hcol expr2.
congr (Ok (_, _, _, _, _)).
rewrite det_mx11 HM2.
rewrite (mx_of_diag N (fun j => (error_flat odeint fsm q j ^+ 2)^-1)).
rewrite mul_mx_diag mxE; apply: eq_bigr => j _.
rewrite [_^T _ _]mxE [X in X * _]mxE [(\row__ _) _ _]mxE !Hcol /error_flat.
by rewrite mulrAC -expr2 [predicted _ _ _ _ * _]mulrC.
Qed.

End OneParameterScore.


(* --------------------------------------------------------------------- *)
(*  FisInMa/plotting/plotting.py: the values that are plotted             *)
(* --------------------------------------------------------------------- *)

Local Close Scope ring_scope.

Module Figures.

Import Plotting.

Section Stacking.

Variable T : Type.
Variable zero : T.

(* The rows of a stacked array, read back from its flat buffer. *)
Lemma nth_flatten_rows (rows : seq (seq T)) m i c :
  all (fun r => size r == m) rows -> i < size rows -> c < m ->
  nth zero (flatten rows) (i * m + c) = nth zero (nth [::] rows i) c.
Proof.
elim: rows i => [|r rows IH] [|i] //= /andP [/eqP Hr Hrows] Hi Hc.
  by rewrite nth_cat Hr Hc.
by rewrite nth_cat Hr mulSn -addnA ltnNge leq_addr /= addKn IH.
Qed.

Lemma size_flatten_rows (rows : seq (seq T)) m :
  all (fun r => size r == m) rows -> size (flatten rows) = size rows * m.
Proof.
elim: rows => [|r rows IH] //= /andP [/eqP Hr /IH Hrows].
by rewrite size_cat Hr Hrows mulSn.
Qed.

Lemma mapM_enumerate (t : seq T) (f : nat -> T -> result (seq T))
  (g : nat -> seq T) a :
  (forall i, i < size t -> f (a + i) (nth zero t i) = Ok (g (a + i))) ->
  mapM (fun it => f it.1 it.2) (zip (iota a (size t)) t) =
  Ok [seq g i | i <- iota a (size t)].
Proof.
elim: t a => [|x t IH] a H //=.
have := H 0 isT; rewrite addn0 /= => ->; rewrite bind_Ok.
rewrite IH // => i Hi.
by have := H i.+1 Hi; rewrite addnS addSn.
Qed.

(* np.array([f(i, ti) for i, ti in enumerate(t)]) when every call returns
   m numbers. *)
Lemma stack_over_ok (t : seq T) (f : nat -> T -> result (seq T))
  (g : nat -> seq T) m :
  (forall i, i < size t -> f i (nth zero t i) = Ok (g i)) ->
  (forall i, i < size t -> size (g i) = m) ->
  exists2 d, stack_over t f = Ok (NdArray [:: size d] d)
           & size d = size t * m /\
             forall i c, i < size t -> c < m ->
               nth zero d (i * m + c) = nth zero (g i) c.
Proof.
move=> Hf Hm; rewrite /stack_over (@mapM_enumerate t f g 0) //.
set rows := [seq g i | i <- iota 0 (size t)].
have Hall : all (fun r => size r == m) rows.
  rewrite /rows all_map; apply/allP => i; rewrite mem_iota add0n /= => Hi.
  by rewrite Hm.
exists (flatten rows) => //; split.
  by rewrite (size_flatten_rows Hall) size_map size_iota.
move=> i c Hi Hc; rewrite (nth_flatten_rows Hall) ?size_map ?size_iota //.
by rewrite (nth_map 0) ?size_iota // nth_iota.
Qed.

End Stacking.

Section Figures.

Variable T : Type.
Variables (zero one : T) (add mul div : T -> T -> T).
Variable solve_ivp :
  T * T -> seq T -> seq T -> ivp_args T -> seq T * ndarray T.
Variable np_linspace : T -> T -> seq T.
Variable np_max : ndarray T -> T.

Notation array := (ndarray T).
Notation integrate := (integrate zero one solve_ivp np_linspace np_max).
Notation observable_sensitivities :=
  (observable_sensitivities zero one add mul solve_ivp np_linspace np_max).
Notation sensitivities2 :=
  (sensitivities2 zero one add mul div solve_ivp np_linspace np_max).
Notation plot_all_sensitivities2 :=
  (plot_all_sensitivities2 zero one add mul div solve_ivp np_linspace np_max).

(* scipy's contract for a successful integration: res.y has one row per
   component of the initial state and one column per time of res.t. *)
Definition integrated_shape (fsr : FisherResults T)
  (sol : FisherResultSingle T) : bool :=
  shape (integrate fsr sol).2 ==
  [:: size (x0_full zero one fsr sol); size (integrate fsr sol).1].

Lemma take_first_ok (A : array) n a rest :
  shape A = a :: rest ->
  exists2 R, take_first zero n A = Ok R
           & shape R = minn n a :: rest /\ well_formed R.
Proof.
move=> HA; rewrite /take_first HA.
by eexists; first by []; split=> //; apply: wf_tabulate.
Qed.

Lemma drop_firstn_ok (A : array) n a rest :
  shape A = a :: rest ->
  exists2 R, drop_firstn zero n A = Ok R
           & shape R = a - n :: rest /\ well_formed R.
Proof.
move=> HA; rewrite /drop_firstn HA.
by eexists; first by []; split=> //; apply: wf_tabulate.
Qed.

(* With ode_dfdx0 the integrator receives n_x + n_x * n_p + n_x values
   where the reshape to (n_x, n_p + n_x, -1) needs n_x * (n_p + n_x) rows
   of sensitivities. *)
Lemma observable_sensitivities_misshaped fsr sol :
  let n_x := size (ode_x0 sol) in
  let n_p := size (parameters sol) in
  let n_t := size (integrate fsr sol).1 in
  integrated_shape fsr sol -> is_callable (ode_dfdx0 fsr) -> 0 < n_x ->
  ~~ (n_x * (n_p + n_x) %| (n_x * n_p + n_x) * n_t) ->
  observable_sensitivities fsr sol = Raise ValueError.
Proof.
move=> n_x n_p n_t /eqP Hsh Hd Hx Hdiv.
rewrite /Plotting.observable_sensitivities.
have -> : (if observed fsr
           then let! g := call (obs_fun fsr) (ode_t0 sol) (ode_x0 sol)
                            (inputs sol) (parameters sol) (ode_args sol) in
                Ok (size g)
           else Ok (size (ode_x0 sol))) =
          Ok (if observed fsr then
                size (if obs_fun fsr is Some g then
                        g (ode_t0 sol) (ode_x0 sol) (inputs sol)
                          (parameters sol) (ode_args sol)
                      else [::])
              else size (ode_x0 sol)).
  by rewrite /observed; case: (obs_fun fsr) => [g|] //=; case: ifP.
rewrite bind_Ok.
have Hrows : size (x0_full zero one fsr sol) = n_x + n_x * n_p + n_x.
  by rewrite size_x0_full Hd.
have [y_x -> [Hyx /eqP Hwx]] := take_first_ok n_x Hsh; rewrite bind_Ok.
have Hmin : minn n_x (size (x0_full zero one fsr sol)) = n_x.
  by apply/minn_idPl; rewrite Hrows -addnA leq_addr.
rewrite /reshape_infer Hwx Hyx Hmin /prod_shape /= !muln1 Hx dvdn_mulr //=.
have [r -> [Hr /eqP Hwr]] := drop_firstn_ok n_x Hsh; rewrite bind_Ok.
rewrite Hwr Hr Hrows /prod_shape /= !muln1 /n_p_full Hd.
have -> : n_x + n_x * n_p + n_x - n_x = n_x * n_p + n_x.
  by rewrite addnAC addnC addnA addnK addnC.
by rewrite (negbTE Hdiv) andbF.
Qed.

(** X18: with ode_dfdx0 supplied, when the integrator returns one row per
    component of x0_full (n_x + n_x*n_p + n_x rows) and n_x*(n_p + n_x)
    does not divide the (n_x*n_p + n_x) * n_t sensitivity values,
    plot_all_sensitivities2 raises ValueError at the reshape to
    (n_x, n_p_full, -1) of the first result. *)
Theorem initial_value_sensitivities_misshaped fsr sol rest :
  let n_x := size (ode_x0 sol) in
  let n_p := size (parameters sol) in
  let n_t := size (integrate fsr sol).1 in
  individual_results fsr = sol :: rest -> integrated_shape fsr sol ->
  is_callable (ode_dfdx0 fsr) -> 0 < n_x ->
  ~~ (n_x * (n_p + n_x) %| (n_x * n_p + n_x) * n_t) ->
  plot_all_sensitivities2 fsr = Raise ValueError.
Proof.
move=> n_x n_p n_t Hres Hsh Hd Hx Hdiv.
rewrite /Plotting.plot_all_sensitivities2 Hres /= /Plotting.sensitivities2.
by rewrite observable_sensitivities_misshaped.
Qed.

(* ------------------------ plot_all_sensitivities --------------------- *)

(* y[:n_x].reshape((n_x, -1))[j]: state j along the solution. *)
Definition state_row (n_x : nat) (y : array) (j : nat) : result array :=
  let! a := take_first zero n_x y in
  let! a := reshape_infer a [:: n_x] in
  getitem_prefix zero a [:: j].

(* y[n_x:].reshape((n_x, n_p_full, -1))[j, k]: the sensitivity of state j
   to parameter k along the solution. *)
Definition sensitivity_row (n_x n_p_full : nat) (y : array) (j k : nat)
  : result array :=
  let! a := drop_firstn zero n_x y in
  let! a := reshape_infer a [:: n_x; n_p_full] in
  getitem_prefix zero a [:: j; k].

(* a / norm, where norm is the float 1.0 (None) or an array. *)
Definition normalise (a : array) (norm : option array) : result array :=
  if norm is Some n then np_binop zero div a n
  else Ok (map_array (fun x => div x one) a).

(* Lines 88-104 of plot_all_sensitivities: the figure for state j and
   parameter k.  Writing the figure to its file is not modelled. *)
Definition sensitivity_figure (fsr : FisherResults T)
  (sol : FisherResultSingle T) (res : seq T * array) (jk : seq nat)
  : result (figure T) :=
  let n_x := size (ode_x0 sol) in
  let n_p_full := n_p_full fsr sol in
  let j := nth 0 jk 0 in
  let k := nth 0 jk 1 in
  let! norms :=
    if relative_sensitivities fsr == false then Ok (None, None)
    else
      let! norm1 := state_row n_x (sol_y (ode_solution sol)) j in
      let! norm2 := state_row n_x res.2 j in
      Ok (Some norm1, Some norm2) in
  let! a := sensitivity_row n_x n_p_full (sol_y (ode_solution sol)) j k in
  let! r := normalise a norms.1 in
  let! b := sensitivity_row n_x n_p_full res.2 j k in
  let! y := normalise b norms.2 in
  Ok {| fig_j := j; fig_k := k; curve := (res.1, y);
        points := (sol_t (ode_solution sol), r) |}.

(* plot_all_sensitivities(fsr): the figures it draws, in order. *)
Definition plot_all_sensitivities (fsr : FisherResults T)
  : result (seq (seq (figure T))) :=
  mapM (fun sol =>
    let res := integrate fsr sol in
    mapM (sensitivity_figure fsr sol res)
      (product [:: size (ode_x0 sol); n_p_full fsr sol]))
    (individual_results fsr).

Lemma map_tabulate (f : T -> T) sh g :
  map_array f (tabulate sh g) = tabulate sh (fun ix => f (g ix)).
Proof. by rewrite /map_array /tabulate /= -map_comp. Qed.

Lemma sensitivity_row_ok n_x n_p n_t (y : array) j k :
  shape y = [:: n_x + n_x * n_p; n_t] -> j < n_x -> k < n_p ->
  sensitivity_row n_x n_p y j k =
  Ok (tabulate [:: n_t] (fun ix =>
        item zero y [:: n_x + (j * n_p + k); nth 0 ix 0])).
Proof.
move=> Hy Hj Hk; rewrite /sensitivity_row /drop_firstn Hy addKn bind_Ok.
have Hpos : 0 < n_x * n_p.
  by rewrite muln_gt0 (leq_ltn_trans _ Hj) // (leq_ltn_trans _ Hk).
rewrite /reshape_infer size_tabulate /prod_shape /= !muln1 Hpos dvdn_mulr //=.
rewrite mulKn // /getitem_prefix /ndim /= Hj Hk /=; congr Ok.
apply: tabulate_ext => ix /in_shape1 [t [-> Ht]] /=.
pose A := tabulate [:: n_x * n_p; n_t]
            (fun ix0 => item zero y (n_x + head 0 ix0 :: behead ix0)).
rewrite -[NdArray _ _]/(NdArray [:: n_x; n_p; n_t] (data A)).
have -> : item zero {| shape := [:: n_x; n_p; n_t]; data := data A |}
            [:: j; k; t] = item zero A [:: j * n_p + k; t].
  by rewrite /item /= !muln1 !addn0 mulnDl mulnA addnA.
rewrite item_tabulate //= Ht !andbT.
apply: (@leq_trans (j.+1 * n_p)); first by rewrite mulSn addnC ltn_add2r.
by rewrite leq_mul2r Hj orbT.
Qed.

Lemma state_row_ok n_x n_p n_t (y : array) j :
  shape y = [:: n_x + n_x * n_p; n_t] -> j < n_x ->
  state_row n_x y j =
  Ok (tabulate [:: n_t] (fun ix => item zero y [:: j; nth 0 ix 0])).
Proof.
move=> Hy Hj; rewrite /state_row /take_first Hy bind_Ok.
have -> : minn n_x (n_x + n_x * n_p) = n_x by apply/minn_idPl; rewrite leq_addr.
have Hpos : 0 < n_x by apply: leq_ltn_trans Hj.
rewrite /reshape_infer size_tabulate /prod_shape /= !muln1 Hpos dvdn_mulr //=.
rewrite mulKn // /getitem_prefix /ndim /= Hj /=; congr Ok.
apply: tabulate_ext => ix /in_shape1 [t [-> Ht]] /=.
pose A := tabulate [:: n_x; n_t] (fun ix0 => item zero y ix0).
rewrite -[NdArray _ _]/(NdArray [:: n_x; n_t] (data A)).
have -> : item zero {| shape := [:: n_x; n_t]; data := data A |} [:: j; t] =
          item zero A [:: j; t] by [].
by rewrite item_tabulate //= Hj Ht.
Qed.

Lemma np_binop_rows (f g : seq nat -> T) n :
  np_binop zero div (tabulate [:: n] f) (tabulate [:: n] g) =
  Ok (tabulate [:: n] (fun ix => div (f ix) (g ix))).
Proof.
rewrite /np_binop /broadcast_shapes /= eqxx /=; congr Ok.
apply: tabulate_ext => ix Hix.
by rewrite !(@bcast_index_id [:: n]) // !item_tabulate.
Qed.

(* The curve of state j and parameter k: the row of dx_j/dp_k, divided by
   1.0, or by x_j in relative mode. *)
Definition normalised_row (relative : bool) (n_x n_p n_t : nat) (y : array)
  (j k : nat) : array :=
  tabulate [:: n_t] (fun ix =>
    div (item zero y [:: n_x + (j * n_p + k); nth 0 ix 0])
        (if relative then item zero y [:: j; nth 0 ix 0] else one)).

Definition expected_figure (fsr : FisherResults T) (sol : FisherResultSingle T)
  (jk : seq nat) : figure T :=
  let n_x := size (ode_x0 sol) in
  let n_p := size (parameters sol) in
  let res := integrate fsr sol in
  let rel := relative_sensitivities fsr in
  {| fig_j := nth 0 jk 0; fig_k := nth 0 jk 1;
     curve := (res.1, normalised_row rel n_x n_p (size res.1) res.2
                        (nth 0 jk 0) (nth 0 jk 1));
     points := (sol_t (ode_solution sol),
                normalised_row rel n_x n_p (size (sol_t (ode_solution sol)))
                  (sol_y (ode_solution sol)) (nth 0 jk 0) (nth 0 jk 1)) |}.

(* The sampled solution of sol holds the states and the sensitivities
   dx/dp at the sampled times. *)
Definition sampled_shape (sol : FisherResultSingle T) : bool :=
  shape (sol_y (ode_solution sol)) ==
  [:: size (ode_x0 sol) + size (ode_x0 sol) * size (parameters sol);
      size (sol_t (ode_solution sol))].

Lemma mapM_map {A B : Type} (P : pred A) (f : A -> result B) (g : A -> B) s :
  (forall x, P x -> f x = Ok (g x)) -> all P s -> mapM f s = Ok (map g s).
Proof.
move=> H; elim: s => [|x s IH] //= /andP [Hx Hs].
by rewrite (H _ Hx) /= (IH Hs).
Qed.

Lemma sensitivity_figure_ok fsr sol jk :
  is_callable (ode_dfdx0 fsr) = false ->
  sampled_shape sol -> integrated_shape fsr sol ->
  in_shape [:: size (ode_x0 sol); size (parameters sol)] jk ->
  sensitivity_figure fsr sol (integrate fsr sol) jk =
  Ok (expected_figure fsr sol jk).
Proof.
move=> Hd /eqP Hs /eqP Hy /in_shape2 [j [k [-> Hj Hk]]].
rewrite size_x0_full Hd addn0 in Hy.
rewrite /sensitivity_figure /expected_figure /n_p_full Hd addn0 /=.
rewrite (sensitivity_row_ok Hs Hj Hk) (sensitivity_row_ok Hy Hj Hk).
case: (relative_sensitivities fsr) => /=.
  rewrite (state_row_ok Hs Hj) (state_row_ok Hy Hj) /=.
  by rewrite !np_binop_rows.
by rewrite !map_tabulate.
Qed.

(** X19: plot_all_sensitivities reads no observable.  Without ode_dfdx0,
    when the sampled solution and the integrator's output hold n_x state
    rows followed by n_x*n_p sensitivity rows, it returns one figure per
    state j and parameter k, in the order of itertools.product, whose curve
    is row n_x + j*n_p + k of res.y divided element-wise by 1.0, or by the
    state row j in relative mode; the sampled points are the same row of
    the sampled solution, normalised in the same way. *)
Theorem plot_all_sensitivities_rows fsr :
  is_callable (ode_dfdx0 fsr) = false ->
  all (fun sol => sampled_shape sol && integrated_shape fsr sol)
      (individual_results fsr) ->
  plot_all_sensitivities fsr =
  Ok [seq [seq expected_figure fsr sol jk
          | jk <- product [:: size (ode_x0 sol); size (parameters sol)]]
     | sol <- individual_results fsr].
Proof.
move=> Hd; apply: mapM_map => sol /andP [Hs Hi].
rewrite /n_p_full Hd addn0.
apply: (@mapM_map _ _ (in_shape [:: size (ode_x0 sol); size (parameters sol)])).
  by move=> jk; apply: sensitivity_figure_ok.
by apply/allP => jk; rewrite product_ndindex mem_ndindex.
Qed.

(* ----------------- plot_all_sensitivities2: the chain rule ----------- *)

Section ChainRule.

Variable fsr : FisherResults T.
Variable sol : FisherResultSingle T.
Variables g gp gx : callable T.

Hypothesis Hg : obs_fun fsr = Some g.
Hypothesis Hgp : obs_dgdp fsr = Some gp.
Hypothesis Hgx : obs_dgdx fsr = Some gx.
Hypothesis Hd : is_callable (ode_dfdx0 fsr) = false.
Hypothesis Hres : integrated_shape fsr sol.

Let n_x := size (ode_x0 sol).
Let n_p := size (parameters sol).
Let res := integrate fsr sol.
Let n_t := size res.1.

(* f(ti, x[:, i], sol.inputs, sol.parameters, sol.ode_args) *)
Definition user_call (f : callable T) (i : nat) : seq T :=
  f (nth zero res.1 i) [seq item zero res.2 [:: l; i] | l <- iota 0 n_x]
    (inputs sol) (parameters sol) (ode_args sol).

Let n_obs := size (g (ode_t0 sol) (ode_x0 sol) (inputs sol) (parameters sol)
                     (ode_args sol)).

Hypothesis Hx : 0 < n_x.
Hypothesis Hp : 0 < n_p.
Hypothesis Hobs : 0 < n_obs.
Hypothesis size_g : forall i, i < n_t -> size (user_call g i) = n_obs.
Hypothesis size_gp : forall i, i < n_t -> size (user_call gp i) = n_obs * n_p.
Hypothesis size_gx : forall i, i < n_t -> size (user_call gx i) = n_x * n_obs.

(* dg_j/dp_k + sum_l dg_j/dx_l * dx_l/dp_k at the i-th time. *)
Definition chain_rule_entry (k j i : nat) : T :=
  add (nth zero (user_call gp i) (j * n_p + k))
      (foldr (fun l acc =>
                add (mul (nth zero (user_call gx i) (l * n_obs + j))
                         (item zero res.2 [:: n_x + (l * n_p + k); i])) acc)
             zero (iota 0 n_x)).

Lemma res_shape : shape res.2 = [:: n_x + n_x * n_p; n_t].
Proof. by rewrite /res (eqP Hres) size_x0_full Hd addn0. Qed.

(* x = res.y[:n_x].reshape((n_x, -1)) *)
Definition states : array :=
  NdArray [:: n_x; n_t]
    (data (tabulate [:: n_x; n_t] (fun ix => item zero res.2 ix))).

Lemma states_ok :
  (let! y_x := take_first zero n_x res.2 in reshape_infer y_x [:: n_x]) =
  Ok states.
Proof.
rewrite /take_first res_shape bind_Ok.
have -> : minn n_x (n_x + n_x * n_p) = n_x by apply/minn_idPl; rewrite leq_addr.
rewrite /reshape_infer size_tabulate /prod_shape /= !muln1 Hx dvdn_mulr //=.
by rewrite mulKn.
Qed.

Lemma column_states i : i < n_t ->
  column zero n_x states i =
  [seq item zero res.2 [:: l; i] | l <- iota 0 n_x].
Proof.
move=> Hi; apply/eq_in_map => l; rewrite mem_iota add0n /= => Hl.
rewrite /states.
rewrite -[NdArray _ _]/(tabulate [:: n_x; n_t] (fun ix => item zero res.2 ix)).
by rewrite item_tabulate //= Hl Hi.
Qed.

(* s = np.swapaxes(r.reshape((n_x, n_p_full, -1)), 0, 1) *)
Definition dxdp : array :=
  tabulate [:: n_p; n_x; n_t] (fun ix =>
    item zero res.2 [:: n_x + (nth 0 ix 1 * n_p + nth 0 ix 0); nth 0 ix 2]).

Lemma dxdp_ok :
  (let! r := drop_firstn zero n_x res.2 in
   let! r := reshape_infer r [:: n_x; n_p] in
   swapaxes zero r 0 1) = Ok dxdp.
Proof.
rewrite /drop_firstn res_shape addKn bind_Ok.
have Hpos : 0 < n_x * n_p by rewrite muln_gt0 Hx Hp.
rewrite /reshape_infer size_tabulate /prod_shape /= !muln1 Hpos dvdn_mulr //=.
rewrite mulKn // /swapaxes /ndim /=; congr Ok.
apply: tabulate_ext => ix /in_shape3 [k [l [i [-> Hk Hl Hi]]]] /=.
pose A := tabulate [:: n_x * n_p; n_t]
            (fun ix0 => item zero res.2 (n_x + head 0 ix0 :: behead ix0)).
rewrite -[NdArray _ _]/(NdArray [:: n_x; n_p; n_t] (data A)).
have -> : item zero {| shape := [:: n_x; n_p; n_t]; data := data A |}
            [:: l; k; i] = item zero A [:: l * n_p + k; i].
  by rewrite /item /= !muln1 !addn0 mulnDl mulnA addnA.
rewrite item_tabulate //= Hi !andbT.
apply: (@leq_trans (l.+1 * n_p)); first by rewrite mulSn addnC ltn_add2r.
by rewrite leq_mul2r Hl orbT.
Qed.

Lemma call_ok (f : option (callable T)) (h : callable T) i :
  f = Some h -> i < n_t ->
  call f (nth zero res.1 i) (column zero n_x states i)
    (inputs sol) (parameters sol) (ode_args sol) = Ok (user_call h i).
Proof. by move=> -> Hi; rewrite /call column_states. Qed.

Lemma item3 (d : seq T) a b c i j k :
  item zero (NdArray [:: a; b; c] d) [:: i; j; k] =
  nth zero d (i * (b * c) + (j * c + k)).
Proof. by rewrite /item /= !muln1 !addn0. Qed.

Lemma item2 (d : seq T) a b i j :
  item zero (NdArray [:: a; b] d) [:: i; j] = nth zero d (i * b + j).
Proof. by rewrite /item /= !muln1 !addn0. Qed.

Lemma lt_flat a b j k : j < a -> k < b -> j * b + k < a * b.
Proof.
move=> Hj Hk; apply: (@leq_trans (j.+1 * b)).
  by rewrite mulSn addnC ltn_add2r.
by rewrite leq_mul2r Hj orbT.
Qed.

(* term1 (line 149) *)
Definition term1_expected : array :=
  tabulate [:: n_p; n_obs; n_t] (fun ix =>
    nth zero (user_call gp (nth 0 ix 2)) (nth 0 ix 1 * n_p + nth 0 ix 0)).

Lemma term1_ok :
  (let! a := stack_over res.1 (fun i_t ti =>
               call (obs_dgdp fsr) ti (column zero n_x states i_t)
                 (inputs sol) (parameters sol) (ode_args sol)) in
   let! a := reshape a [:: n_t; n_obs; n_p] in
   swapaxes zero a 0 2) = Ok term1_expected.
Proof.
pose f := fun (i_t : nat) (ti : T) =>
  call (obs_dgdp fsr) ti (column zero n_x states i_t)
    (inputs sol) (parameters sol) (ode_args sol).
have Hf i : i < size res.1 -> f i (nth zero res.1 i) = Ok (user_call gp i).
  by move=> Hi; apply: (call_ok Hgp).
have [d -> [Hsz Hd1]] := stack_over_ok Hf size_gp.
rewrite bind_Ok /reshape /prod_shape /= muln1 Hsz eqxx bind_Ok.
rewrite /swapaxes /ndim /=; congr Ok.
apply: tabulate_ext => ix /in_shape3 [k [j [i [-> Hk Hj Hi]]]] /=.
by rewrite item3 Hd1 // lt_flat.
Qed.

(* obs (line 184) *)
Definition obs_expected : array :=
  tabulate [:: n_obs; n_t] (fun ix =>
    nth zero (user_call g (nth 0 ix 1)) (nth 0 ix 0)).

Lemma obs_ok :
  (let! o := stack_over res.1 (fun i_t ti =>
               call (obs_fun fsr) ti (column zero n_x states i_t)
                 (inputs sol) (parameters sol) (ode_args sol)) in
   let! o := reshape_infer_first o [:: n_obs] in
   Ok (transpose zero o)) = Ok obs_expected.
Proof.
pose f := fun (i_t : nat) (ti : T) =>
  call (obs_fun fsr) ti (column zero n_x states i_t)
    (inputs sol) (parameters sol) (ode_args sol).
have Hf i : i < size res.1 -> f i (nth zero res.1 i) = Ok (user_call g i).
  by move=> Hi; apply: (call_ok Hg).
have [d -> [Hsz Hd1]] := stack_over_ok Hf size_g.
rewrite bind_Ok /reshape_infer_first /prod_shape /= muln1 Hsz Hobs dvdn_mull //=.
rewrite mulnK // /transpose /=; congr Ok.
apply: tabulate_ext => ix /in_shape2 [j [i [-> Hj Hi]]] /=.
by rewrite item2 Hd1.
Qed.

Lemma foldr_iota_ext (f f' : nat -> T -> T) z n :
  (forall l, l < n -> f l =1 f' l) ->
  foldr f z (iota 0 n) = foldr f' z (iota 0 n).
Proof.
move=> H; have {H} : forall l, l \in iota 0 n -> f l =1 f' l.
  by move=> l; rewrite mem_iota add0n /=; apply: H.
elim: (iota 0 n) => [|l s IH] //= H.
by rewrite H ?mem_head // IH // => l' Hl'; apply: H; rewrite inE Hl' orbT.
Qed.

(* dg_j/dx . dx/dp_k at the i-th time *)
Definition chain_sum (k j i : nat) : T :=
  foldr (fun l acc =>
           add (mul (nth zero (user_call gx i) (l * n_obs + j))
                    (item zero res.2 [:: n_x + (l * n_p + k); i])) acc)
        zero (iota 0 n_x).

Definition chain_row (i : nat) : seq T :=
  data (tabulate [:: n_obs; n_p] (fun ix => chain_sum (nth 0 ix 1) (nth 0 ix 0) i)).

Lemma chain_ok i : i < n_t ->
  (let! gv := call (obs_dgdx fsr) (nth zero res.1 i) (column zero n_x states i)
                (inputs sol) (parameters sol) (ode_args sol) in
   let! G := reshape (np_array1 gv) [:: n_x; n_obs] in
   let! sl := rows_at zero dxdp 0 (minn n_p (head 0 (shape dxdp))) i in
   let! m := np_dot zero add mul (transpose zero G) (transpose zero sl) in
   Ok (data m)) = Ok (chain_row i).
Proof.
move=> Hi; rewrite (call_ok Hgx Hi) bind_Ok.
rewrite /reshape /prod_shape /= muln1 size_gx // eqxx bind_Ok.
rewrite /rows_at /= Hi minnn bind_Ok /np_dot /= eqxx bind_Ok /chain_row.
congr (Ok (data _)); apply: tabulate_ext => ix /in_shape2 [j [k [-> Hj Hk]]] /=.
apply: foldr_iota_ext => l Hl acc; congr (add (mul _ _) _).
  by rewrite item_tabulate /= ?Hj ?Hl // item2.
rewrite item_tabulate /= ?Hl ?Hk // item_tabulate /= ?Hk ?Hl //.
by rewrite add0n item_tabulate //= Hk Hl Hi.
Qed.

(* term2 (lines 152-159) *)
Definition term2_expected : array :=
  tabulate [:: n_p; n_obs; n_t] (fun ix =>
    chain_sum (nth 0 ix 0) (nth 0 ix 1) (nth 0 ix 2)).

Lemma size_chain_row i : size (chain_row i) = n_obs * n_p.
Proof. by rewrite /chain_row size_tabulate /prod_shape /= muln1. Qed.

Lemma nth_chain_row i j k : j < n_obs -> k < n_p ->
  nth zero (chain_row i) (j * n_p + k) = chain_sum k j i.
Proof.
move=> Hj Hk; rewrite -(item2 _ n_obs) /chain_row.
rewrite -[NdArray _ _]/(tabulate [:: n_obs; n_p] _) item_tabulate //=.
by rewrite Hj Hk.
Qed.

Lemma term2_ok :
  (let! b := stack_over res.1 (fun i ti =>
               let! gv := call (obs_dgdx fsr) ti (column zero n_x states i)
                            (inputs sol) (parameters sol) (ode_args sol) in
               let! G := reshape (np_array1 gv) [:: n_x; n_obs] in
               let! sl := rows_at zero dxdp 0
                            (minn n_p (head 0 (shape dxdp))) i in
               let! m := np_dot zero add mul (transpose zero G)
                           (transpose zero sl) in
               Ok (data m)) in
   let! b := reshape b [:: n_t; n_obs; n_p] in
   swapaxes zero b 0 2) = Ok term2_expected.
Proof.
pose f := fun (i : nat) (ti : T) =>
  let! gv := call (obs_dgdx fsr) ti (column zero n_x states i)
               (inputs sol) (parameters sol) (ode_args sol) in
  let! G := reshape (np_array1 gv) [:: n_x; n_obs] in
  let! sl := rows_at zero dxdp 0 (minn n_p (head 0 (shape dxdp))) i in
  let! m := np_dot zero add mul (transpose zero G) (transpose zero sl) in
  Ok (data m).
have Hf i : i < size res.1 -> f i (nth zero res.1 i) = Ok (chain_row i).
  by move=> Hi; apply: chain_ok.
have [d -> [Hsz Hd1]] := stack_over_ok Hf (fun i _ => size_chain_row i).
rewrite bind_Ok /reshape /prod_shape /= muln1 Hsz eqxx bind_Ok.
rewrite /swapaxes /ndim /=; congr Ok.
apply: tabulate_ext => ix /in_shape3 [k [j [i [-> Hk Hj Hi]]]] /=.
by rewrite item3 Hd1 ?nth_chain_row // lt_flat.
Qed.

Lemma bindA {A B C : Type} (c : result A) (f : A -> result B)
  (k : B -> result C) :
  bind (bind c f) k = bind c (fun x => bind (f x) k).
Proof. by case: c. Qed.

Lemma bshape_rev_same s : bshape_rev s s = Some s.
Proof. by elim: s => [|a s IH] //=; rewrite eqxx IH. Qed.

Lemma np_binop_same (op : T -> T -> T) sh (f1 f2 : seq nat -> T) :
  np_binop zero op (tabulate sh f1) (tabulate sh f2) =
  Ok (tabulate sh (fun ix => op (f1 ix) (f2 ix))).
Proof.
rewrite /np_binop /broadcast_shapes /= bshape_rev_same /= revK; congr Ok.
apply: tabulate_ext => ix Hix.
by rewrite !(@bcast_index_id sh) // !item_tabulate.
Qed.

Lemma Ok_inj {A : Type} (a b : A) : Ok a = Ok b -> a = b.
Proof. by move=> H; injection H. Qed.

Lemma bind3_k {A B C D : Type} (c : result A) (f1 : A -> result B)
  (f2 : B -> result C) (K : C -> result D) v :
  (let! a := c in let! b := f1 a in f2 b) = Ok v ->
  (let! a := c in let! b := f1 a in let! x := f2 b in K x) = K v.
Proof.
case: c => //= a; case: (f1 a) => //= b.
by case: (f2 b) => //= x [->].
Qed.

Lemma states_k {A : Type} (K : array -> result A) :
  (let! y_x := take_first zero n_x res.2 in
   let! x := reshape_infer y_x [:: n_x] in K x) = K states.
Proof.
by rewrite -(bindA _ (fun y_x => reshape_infer y_x [:: n_x]) K) states_ok.
Qed.

Lemma dxdp_k {A : Type} (K : array -> result A) :
  (let! r := drop_firstn zero n_x res.2 in
   let! r := reshape_infer r [:: n_x; n_p] in
   let! s := swapaxes zero r 0 1 in K s) = K dxdp.
Proof.
exact: (bind3_k _ dxdp_ok).
Qed.

Lemma term1_k {A : Type} (K : array -> result A) :
  (let! a := stack_over res.1 (fun i_t ti =>
               call (obs_dgdp fsr) ti (column zero n_x states i_t)
                 (inputs sol) (parameters sol) (ode_args sol)) in
   let! a := reshape a [:: n_t; n_obs; n_p] in
   let! term1 := swapaxes zero a 0 2 in K term1) = K term1_expected.
Proof.
exact: (bind3_k _ term1_ok).
Qed.

Lemma term2_k {A : Type} (K : array -> result A) :
  (let! b := stack_over res.1 (fun i ti =>
               let! gv := call (obs_dgdx fsr) ti (column zero n_x states i)
                            (inputs sol) (parameters sol) (ode_args sol) in
               let! G := reshape (np_array1 gv) [:: n_x; n_obs] in
               let! sl := rows_at zero dxdp 0
                            (minn n_p (head 0 (shape dxdp))) i in
               let! m := np_dot zero add mul (transpose zero G)
                           (transpose zero sl) in
               Ok (data m)) in
   let! b := reshape b [:: n_t; n_obs; n_p] in
   let! term2 := swapaxes zero b 0 2 in K term2) = K term2_expected.
Proof.
exact: (bind3_k _ term2_ok).
Qed.

Lemma obs_k :
  exists2 o0, transpose zero o0 = obs_expected
            & forall (A : Type) (K : array -> result A),
                (let! o := stack_over res.1 (fun i_t ti =>
                             call (obs_fun fsr) ti (column zero n_x states i_t)
                               (inputs sol) (parameters sol) (ode_args sol)) in
                 let! o := reshape_infer_first o [:: n_obs] in K o) = K o0.
Proof.
have := obs_ok; set c := stack_over _ _.
case: c => //= o; case: (reshape_infer_first o _) => //= o0 Ho.
by exists o0 => //; apply: Ok_inj Ho.
Qed.

Lemma observable_sensitivities_chain_rule :
  observable_sensitivities fsr sol =
  Ok (res.1,
      tabulate [:: n_p; n_obs; n_t] (fun ix =>
        chain_rule_entry (nth 0 ix 0) (nth 0 ix 1) (nth 0 ix 2)),
      obs_expected, n_obs).
Proof.
rewrite /Plotting.observable_sensitivities; cbv zeta.
have Hobserved : observed fsr by rewrite /observed Hg Hgp Hgx.
rewrite Hobserved Hd [false && _]/= {1}Hg [call _ _ _ _ _ _]/= !bind_Ok.
rewrite /n_p_full Hd addn0 -/res -/n_x -/n_p -/n_t -/n_obs.
rewrite states_k dxdp_k term1_k term2_k !bind_Ok.
rewrite /term1_expected /term2_expected np_binop_same bind_Ok.
by have [o0 <- ->] := obs_k.
Qed.

(* The values plotted for parameter k and observable j (lines 185-201). *)
Definition plotted_entry (k j i : nat) : T :=
  if relative_sensitivities fsr then
    div (mul (chain_rule_entry k j i) (nth zero (parameters sol) k))
        (nth zero (user_call g i) j)
  else chain_rule_entry k j i.

(** X20: with an observable (obs_fun, obs_dgdp, obs_dgdx callable and
    returning n_obs, n_obs*n_p and n_x*n_obs numbers) and without
    ode_dfdx0, the sensitivities that plot_all_sensitivities2 plots for
    parameter k and observable j at the i-th time are the chain rule
    dg_j/dp_k + sum_l dg_j/dx_l * dx_l/dp_k, where dx_l/dp_k is row
    n_x + l*n_p + k of the integrator's output; in relative mode each is
    multiplied by parameter k and divided by the observable g_j. *)
Theorem sensitivities2_chain_rule :
  sensitivities2 fsr sol =
  Ok (res.1,
      tabulate [:: n_p; n_obs; n_t] (fun ix =>
        plotted_entry (nth 0 ix 0) (nth 0 ix 1) (nth 0 ix 2)),
      n_obs).
Proof.
rewrite /Plotting.sensitivities2 observable_sensitivities_chain_rule bind_Ok.
rewrite /plotted_entry; case: (relative_sensitivities fsr) => //=.
rewrite (@relative_transform_entries _ zero mul div _ _ _ n_p n_obs n_t) //.
- exact: wf_tabulate.
- by rewrite /params Hd.
rewrite bind_Ok; congr (Ok (_, _, _)).
apply: tabulate_ext => ix /in_shape3 [k [j [i [-> Hk Hj Hi]]]] /=.
rewrite item_tabulate /= ?Hk ?Hj ?Hi // item_tabulate /= ?Hj ?Hi //.
by rewrite /params Hd.
Qed.

End ChainRule.

End Figures.
End Figures.

Local Open Scope ring_scope.

(* --------------------------------------------------------------------- *)
(*  examples/limited_growth.py: the right-hand side and its derivatives   *)
(* --------------------------------------------------------------------- *)

Module LimitedGrowth.

Section Example.

(* Python floats as the numbers of a field: arithmetic is exact. *)
Variable F : numFieldType.

(* (a,) = P: unpacking a sequence of exactly one element; ValueError for
   any other length. *)
Definition unpack1 (s : seq F) : result F :=
  if s is [:: x] then Ok x else Raise ValueError.

(* exp_growth(t, y, Q, P, Const) *)
Definition exp_growth (t : F) (y Q P Const : seq F) : result (seq F) :=
  let! a := unpack1 P in
  let! Temp := unpack1 Q in
  let! n_max := unpack1 Const in
  let! n := unpack1 y in
  Ok [:: Temp * a * (n_max - n)].

(* dedx(t, y, Q, P, Const) *)
Definition dedx (t : F) (y Q P Const : seq F) : result (seq (seq F)) :=
  let! a := unpack1 P in
  let! Temp := unpack1 Q in
  let! n_max := unpack1 Const in
  let! n := unpack1 y in
  Ok [:: [:: - Temp * a]].

(* dedp(t, y, Q, P, Const) *)
Definition dedp (t : F) (y Q P Const : seq F) : result (seq (seq F)) :=
  let! a := unpack1 P in
  let! Temp := unpack1 Q in
  let! n_max := unpack1 Const in
  let! n := unpack1 y in
  Ok [:: [:: - Temp * n]].

Definition singleton (s : seq F) : bool := size s == 1%N.

Lemma unpack1_raises s : raises (unpack1 s) = ~~ singleton s.
Proof. by case: s => [|x [|y s]]. Qed.

(** X21: exp_growth, dedx and dedp accept the same arguments: each raises
    (ValueError, from the tuple unpacking) exactly when one of P, Q, Const
    and y does not hold exactly one element. *)
Theorem example_unpacking t y Q P Const :
  let ok := [&& singleton P, singleton Q, singleton Const & singleton y] in
  [/\ raises (exp_growth t y Q P Const) = ~~ ok,
      raises (dedx t y Q P Const) = ~~ ok
    & raises (dedp t y Q P Const) = ~~ ok].
Proof.
rewrite /exp_growth /dedx /dedp /singleton.
by case: P => [|a [|? ?]]; case: Q => [|b [|? ?]]; case: Const => [|c [|? ?]];
   case: y => [|d [|? ?]].
Qed.

(** X22: dedx is the exact derivative of exp_growth by the state: the
    rate at n + h is the rate at n plus dedx * h, for every h. *)
Theorem dedx_exact t n h Temp a n_max :
  exists f d,
    [/\ exp_growth t [:: n] [:: Temp] [:: a] [:: n_max] = Ok [:: f],
        dedx t [:: n] [:: Temp] [:: a] [:: n_max] = Ok [:: [:: d]]
      & exp_growth t [:: n + h] [:: Temp] [:: a] [:: n_max] =
        Ok [:: f + d * h]].
Proof.
exists (Temp * a * (n_max - n)), (- Temp * a); split=> //.
rewrite /exp_growth /=; congr (Ok [:: _]).
by rewrite opprD addrA mulrDr mulrN !mulNr.
Qed.

(** X23: the rate of exp_growth at the parameter a + h is the rate at a
    plus (dedp + Temp * n_max) * h: what dedp returns, - Temp * n, differs
    from the derivative by the parameter by Temp * n_max. *)
Theorem dedp_offset t n h Temp a n_max :
  exists f d,
    [/\ exp_growth t [:: n] [:: Temp] [:: a] [:: n_max] = Ok [:: f],
        dedp t [:: n] [:: Temp] [:: a] [:: n_max] = Ok [:: [:: d]]
      & exp_growth t [:: n] [:: Temp] [:: a + h] [:: n_max] =
        Ok [:: f + (d + Temp * n_max) * h]].
Proof.
exists (Temp * a * (n_max - n)), (- Temp * n); split=> //.
rewrite /exp_growth /=; congr (Ok [:: _]).
rewrite [Temp * (a + h)]mulrDr [(_ + _) * (n_max - n)]mulrDl; congr (_ + _).
by rewrite mulNr [- _ + _]addrC -mulrBr mulrAC.
Qed.

End Example.

End LimitedGrowth.


(* --------------------------------------------------------------------- *)
(*  src/solving.py on concrete models                                     *)
(* --------------------------------------------------------------------- *)

Section Euler.

Variable F : numFieldType.

(* Explicit Euler steps along the times ts: a stand-in for scipy's odeint
   with the same interface, used to run the code on concrete models. *)
Fixpoint euler_rows (f : ode_callable F) (args : seq F * seq F * seq F)
  (y : seq F) (t : F) (ts : seq F) : seq (seq F) :=
  if ts is t' :: ts' then
    let y' := [seq yd.1 + (t' - t) * yd.2
              | yd <- zip y (f y t args.1.1 args.1.2 args.2)] in
    y' :: euler_rows f args y' t' ts'
  else [::].

Definition euler_odeint (f : ode_callable F) (y0 ts : seq F)
  (args : seq F * seq F * seq F) (J : ode_callable F) : ndarray F :=
  NdArray [:: size ts; size y0]
    (flatten (y0 :: euler_rows f args y0 (head 0 ts) (behead ts))).

Lemma euler_odeint_shape f y0 t args J :
  shape (euler_odeint f y0 t args J) = [:: size t; size y0].
Proof. by []. Qed.

(* Limited growth (examples/limited_growth.py) with its sensitivity to a:
     dn/dt = r a (n_max - n),   ds/dt = - r a s + r (n_max - n),
   where the rate r is the product of the inputs Q. *)
Definition limited_growth : ode_callable F := fun y t Q P Const =>
  let n := nth 0 y 0 in
  let s := nth 0 y 1 in
  let r := nth 0 Q 0 * nth 1 Q 1 in
  let a := nth 0 P 0 in
  let n_max := nth 0 Const 0 in
  [:: r * a * (n_max - n); - (r * a) * s + r * (n_max - n)].

Definition limited_growth_jac : ode_callable F := fun y t Q P Const =>
  let r := nth 0 Q 0 * nth 1 Q 1 in
  let a := nth 0 P 0 in
  [:: - (r * a); 0; - r; - (r * a)].

(* A model with the input grids qs, the initial state [n0, 0] at time 0,
   a = 1, and the measurement times ts for every combination. *)
Definition growth_model (qs : seq (seq F)) (n0 n_max : F) (ts : seq F)
  : FischerData F := {|
  y0_t0 := ([:: n0; 0], 0);
  parameters := [:: 1];
  constants := [:: n_max];
  times := NdArray (rcons [seq size q | q <- qs] (size ts))
             (flatten (nseq (prod_shape [seq size q | q <- qs]) ts));
  q_values := qs;
  ode_func := limited_growth;
  jacobian := limited_growth_jac
|}.

End Euler.

(* One input with two values, two measurement times. *)
Definition fsm_growth : FischerData rat :=
  growth_model [:: [:: 1; 2%:R]] 1 4%:R [:: 1; 2%:R].

(* The same model started at n = 0 with n_max = 0: n stays 0. *)
Definition fsm_extinct : FischerData rat :=
  growth_model [:: [:: 1]] 0 0 [:: 1].

(* Two inputs with two values each. *)
Definition fsm_grid (ts : seq rat) : FischerData rat :=
  growth_model [:: [:: 1; 2%:R]; [:: 1; 3%:R]] 1 4%:R ts.

Notation rat_S_matrix := (get_S_matrix (@euler_odeint rat)).

Lemma fsm_growth_predicted c t :
  (c < 2)%N -> (t < 2)%N ->
  predicted (@euler_odeint rat) fsm_growth c t != 0.
Proof.
by case: c => [|[|//]]; case: t => [|[|//]] _ _; vm_compute.
Qed.

(** C1: one input with two values and two times per value, one parameter.
    The sensitivities of design point 0 are 3 (first time) and 0 (second
    time), those of design point 1 are 6 and -12.  The code returns
    S = [3, 6, 0, -12]: the two columns of a design point are not
    contiguous, the times vary slowest; stated (and documented in the
    docstring, S[i, j1, ..., t]) is the layout [3, 0, 6, -12]. *)
Theorem S_columns_time_major :
  [seq item 0 (r_at (@euler_odeint rat) fsm_growth [:: c]) [:: 1%N; t]
  | c <- [:: 0%N; 1%N], t <- [:: 0%N; 1%N]] = [:: 3%:R; 0; 6%:R; - 12%:R] /\
  exists C sols,
    rat_S_matrix fsm_growth =
    Ok (NdArray [:: 1%N; 4%N] [:: 3%:R; 6%:R; 0; - 12%:R], C, sols).
Proof.
split; first by vm_compute.
do 2!eexists.
by rewrite (@get_S_matrix_single_ok _ _ (@euler_odeint_shape rat)
              fsm_growth [:: 1; 2%:R] 2) //; exact: fsm_growth_predicted.
Qed.

(** C7: two inputs with two values each and three measurement times per
    combination.  The first pass of the loop raises ValueError at
    error_n[:, index] = ...: no combination after the first is visited and
    nothing is returned. *)
Theorem two_inputs_raise :
  rat_S_matrix (fsm_grid [:: 1; 2%:R; 3%:R]) = Raise ValueError.
Proof. by vm_compute. Qed.

(* The state error_n in which the loop ends for fsm_grid [:: 1]. *)
Definition error_grid1 : ndarray rat :=
  NdArray [:: 1%N; 2%N; 2%N]
    [:: 7%:R / 4%:R; 7%:R / 4%:R; 19%:R / 4%:R; 19%:R / 4%:R].

Lemma fsm_grid1_loop :
  exists S_ sols,
    [/\ foldM (get_S_matrix_body (@euler_odeint rat) (fsm_grid [:: 1]))
          (np_zeros 0 [:: 1%N; 1%N; 2%N; 2%N], np_zeros 0 [:: 1%N; 2%N; 2%N],
           [::])
          (product [:: 2%N; 2%N]) = Ok (S_, error_grid1, sols),
        well_formed S_ & shape S_ = [:: 1%N; 1%N; 2%N; 2%N]].
Proof.
by do 2!eexists; split; first by vm_compute; reflexivity.
Qed.

(** C8: two inputs with two values each and one measurement time.  The
    predicted values of the four combinations are 4, 10, 7 and 19, all
    nonzero, so the stated diagonal of C is 1, 4/25, 16/49, 16/361.  The
    code returns the diagonal 16/49, 16/49, 16/361, 16/361: the entries of
    the first two samples are those of other combinations. *)
Theorem C_diagonal_two_inputs :
  [seq ((item 0 (r_at (@euler_odeint rat) (fsm_grid [:: 1]) index)
           [:: 0%N; 0%N] * quarter rat) ^+ 2)^-1
  | index <- product [:: 2%N; 2%N]] =
    [:: 1; 4%:R / 25%:R; 16%:R / 49%:R; 16%:R / 361%:R] /\
  exists S_ C sols,
    rat_S_matrix (fsm_grid [:: 1]) = Ok (S_, C, sols) /\
    [seq item 0 C [:: i; i] | i <- iota 0 4] =
    [:: 16%:R / 49%:R; 16%:R / 49%:R; 16%:R / 361%:R; 16%:R / 361%:R].
Proof.
split; first by vm_compute.
have [S_ [sols [Hloop Hwf Hsh]]] := fsm_grid1_loop.
have Hall : all (fun i => nth 0 (data error_grid1) i != 0)
              (iota 0 (size (data error_grid1))) by vm_compute.
have Hfin := get_S_matrix_finish _ Hloop Hwf _ _.
rewrite Hall in Hfin.
do 3!eexists; split.
 by apply: Hfin; rewrite ?Hsh.
by vm_compute.
Qed.

(* Decay to n_max = 0 from n = 1: with the first input value the first
   Euler step lands on n = 0 exactly, with the second on n = -1. *)
Definition fsm_decay : FischerData rat :=
  growth_model [:: [:: 1; 2%:R]] 1 0 [:: 1].

(* A predicted value that is exactly zero: get_S_matrix raises. *)
Lemma decay_zero_prediction :
  [/\ predicted (@euler_odeint rat) fsm_decay 0 0 = 0,
      predicted (@euler_odeint rat) fsm_decay 1 0 = -1
    & rat_S_matrix fsm_decay = Raise LinAlgError].
Proof.
split; [by vm_compute | by vm_compute |].
by apply: (@get_S_matrix_single_singular _ _ (@euler_odeint_shape rat)
             fsm_decay [:: 1; 2%:R] 1 _ _ _ 0%N 0%N) => //; vm_compute.
Qed.

Lemma extinct_zero_prediction :
  predicted (@euler_odeint rat) fsm_extinct 0 0 = 0 /\
  rat_S_matrix fsm_extinct = Raise LinAlgError.
Proof.
split; first by vm_compute.
by apply: (@zero_prediction_raises _ _ (@euler_odeint_shape rat)
             fsm_extinct [:: 1] 1 _ _ _ 0%N 0%N) => //; vm_compute.
Defined.

(* The growth model scored by the determinant criterion. *)
Definition fsm_growth_det : FischerModel rat rat := {|
  fdata := fsm_growth;
  observable := @fischer_determinant rat
|}.

Lemma growth_default_identity :
  exists S_ C r,
    rat_S_matrix fsm_growth = Ok (S_, C, r) /\
    let I_ := np_eye rat (nth 0%N (shape S_) 1) (nth 0%N (shape S_) 1) in
    calculate_fischer_observable (@euler_odeint rat) fsm_growth_det false =
      (let! obs := observable fsm_growth_det fsm_growth_det S_ I_ in
       Ok (obs, fsm_growth_det, S_, I_, r)) /\
    calculate_fischer_observable (@euler_odeint rat) fsm_growth_det true =
      (let! obs := observable fsm_growth_det fsm_growth_det S_ C in
       Ok (obs, fsm_growth_det, S_, C, r)).
Proof.
do 3!eexists; split; last first.
  apply: (@calculate_fischer_observable_identity rat rat (@euler_odeint rat)
            fsm_growth_det).
  by rewrite (@get_S_matrix_single_ok _ _ (@euler_odeint_shape rat)
                fsm_growth [:: 1; 2%:R] 2) //; exact: fsm_growth_predicted.
by rewrite (@get_S_matrix_single_ok _ _ (@euler_odeint_shape rat)
              fsm_growth [:: 1; 2%:R] 2) //; exact: fsm_growth_predicted.
Defined.

(* The single-input theorems at the growth model. *)
Lemma growth_S_layout :
  exists S_ C sols,
    [/\ rat_S_matrix fsm_growth = Ok (S_, C, sols),
        shape S_ = [:: 1%N; (2 * 2)%N]
      & forall p t c, (p < 1)%N -> (t < 2)%N -> (c < 2)%N ->
          item 0 S_ [:: p; (t * 2 + c)%N] =
          item 0 (integrate_at (@euler_odeint rat) fsm_growth [:: c])
            [:: t.+1; p.+1]].
Proof.
exact: (@single_input_S_layout _ _ (@euler_odeint_shape rat) fsm_growth
          [:: 1; 2%:R] 2 erefl erefl erefl fsm_growth_predicted).
Defined.

Lemma growth_C_diagonal :
  exists S_ C sols,
    [/\ rat_S_matrix fsm_growth = Ok (S_, C, sols),
        shape C = [:: (2 * 2)%N; (2 * 2)%N]
      & forall t c t' c',
          (t < 2)%N -> (c < 2)%N -> (t' < 2)%N -> (c' < 2)%N ->
          item 0 C [:: (t * 2 + c)%N; (t' * 2 + c')%N] =
          if (t == t') && (c == c') then
            ((quarter rat *
              predicted (@euler_odeint rat) fsm_growth c t) ^+ 2)^-1
          else 0].
Proof.
exact: (@single_input_C_diagonal _ _ (@euler_odeint_shape rat) fsm_growth
          [:: 1; 2%:R] 2 erefl erefl erefl fsm_growth_predicted).
Defined.

Lemma growth_solutions :
  exists S_ C sols,
    [/\ rat_S_matrix fsm_growth = Ok (S_, C, sols),
        size sols = 2
      & forall c, (c < 2)%N ->
          nth (np_zeros 0 [::], [::], np_zeros 0 [::]) sols c =
          (times_at fsm_growth [:: c], [:: nth 0 [:: 1; 2%:R] c],
           r_at (@euler_odeint rat) fsm_growth [:: c])].
Proof.
exact: (@single_input_solutions _ _ (@euler_odeint_shape rat) fsm_growth
          [:: 1; 2%:R] 2 erefl erefl erefl fsm_growth_predicted).
Defined.

Lemma growth_solutions_in_grid_order :
  exists S_ C sols,
    rat_S_matrix fsm_growth = Ok (S_, C, sols) /\
    (mapM (solution_at (@euler_odeint rat) fsm_growth)
       (ndindex [seq size q | q <- q_values fsm_growth]) = Ok sols /\
     size sols = prod_shape [seq size q | q <- q_values fsm_growth]).
Proof.
have H := @get_S_matrix_single_ok _ _ (@euler_odeint_shape rat) fsm_growth
            [:: 1; 2%:R] 2 erefl erefl erefl fsm_growth_predicted.
do 3!eexists; split; first exact: H.
exact: (solutions_in_grid_order H).
Defined.

(* One parameter and one sample over the algebraic numbers: S = [[2]] and
   C = [[1]] give the Fisher matrix [[4]]. *)
Definition S_one : ndarray algC := NdArray [:: 1%N; 1%N] [:: 2%:R].

Definition C_one : ndarray algC := NdArray [:: 1%N; 1%N] [:: 1].

Definition F_one : ndarray algC :=
  NdArray [:: 1%N; 1%N] [:: (2%:R * 1 + 0) * 2%:R + 0].

Lemma one_sample_mineigenval :
  exists2 v,
    fischer_mineigenval (growth_model [:: [:: 1]] 1 1 [:: 1]) S_one C_one
      = Ok v &
    [/\ v \is Num.real, eigenvalue (mx_of 1 1 F_one) v
      & forall w, eigenvalue (mx_of 1 1 F_one) w -> v <= w].
Proof.
have E : fisher_matrix S_one C_one = Ok F_one by [].
apply: (fischer_mineigenval_real_symmetric
          (growth_model [:: [:: 1]] 1 1 [:: 1]) E) => //.
rewrite /real_symmetric /= /item /= eqxx ?andbT.
by rewrite mulr1 !addr0 -natrM realn.
Defined.

(* --------------------------------------------------------------------- *)
(*  The further properties on concrete models                             *)
(* --------------------------------------------------------------------- *)

(* One input without values. *)
Definition fsm_no_values : FischerData rat :=
  growth_model [:: [::]] 1 4%:R [:: 1; 2%:R].

Lemma no_values_design :
  rat_S_matrix fsm_no_values =
    Ok (NdArray [:: 1%N; 0%N] [::], NdArray [:: 0%N; 0%N] [::], [::]) /\
  fischer_determinant fsm_no_values
    (NdArray [:: 1%N; 0%N] [::]) (NdArray [:: 0%N; 0%N] [::]) = Ok 0.
Proof.
by apply: (@empty_grid_design rat (@euler_odeint rat) fsm_no_values).
Defined.

(* No input at all. *)
Definition fsm_no_inputs : FischerData rat :=
  growth_model [::] 1 4%:R [:: 1; 2%:R].

Lemma no_inputs_growth : raises (rat_S_matrix fsm_no_inputs).
Proof. exact: (@no_inputs_raise rat (@euler_odeint rat) fsm_no_inputs erefl). Defined.

Lemma grid_four_times :
  rat_S_matrix (fsm_grid [:: 1; 2%:R; 3%:R; 4%:R]) = Raise ValueError.
Proof.
exact: (@two_inputs_many_times rat _ (@euler_odeint_shape rat)
          (fsm_grid [:: 1; 2%:R; 3%:R; 4%:R]) [:: 1; 2%:R] [:: 1; 3%:R] 4
          erefl erefl erefl isT isT isT isT).
Defined.

(* S = [[1, 2], [3, 4]] and the symmetric C = [[2, 1], [1, 3]]. *)
Definition S_square : ndarray rat :=
  NdArray [:: 2%N; 2%N] [:: 1; 2%:R; 3%:R; 4%:R].

Definition C_symmetric : ndarray rat :=
  NdArray [:: 2%N; 2%N] [:: 2%:R; 1; 1; 3%:R].

Definition F_square : ndarray rat :=
  NdArray [:: 2%N; 2%N] [:: 18%:R; 40%:R; 40%:R; 90%:R].

Lemma symmetric_example :
  fisher_matrix S_square C_symmetric = Ok F_square /\
  item 0 F_square [:: 0%N; 1%N] = item 0 F_square [:: 1%N; 0%N].
Proof.
have E : fisher_matrix S_square C_symmetric = Ok F_square by vm_compute.
split; first exact: E.
apply: (@fisher_matrix_symmetric rat S_square C_symmetric F_square 2 2
          erefl erefl _ E 0%N 1%N isT isT).
by case=> [|[|i]] [|[|j]].
Defined.

(* The growth model with no growth, scored by the determinant. *)
Definition fsm_extinct_det : FischerModel rat rat := {|
  fdata := fsm_extinct;
  observable := @fischer_determinant rat
|}.

Lemma extinct_default_score :
  predicted (@euler_odeint rat) fsm_extinct_det 0 0 = 0 /\
  calculate_fischer_observable (@euler_odeint rat) fsm_extinct_det false =
  Raise LinAlgError.
Proof.
split; first by vm_compute.
by apply: (@zero_prediction_default_score rat _ (@euler_odeint_shape rat) rat
             fsm_extinct_det [:: 1] 1 erefl erefl erefl 0%N 0%N false) => //;
   vm_compute.
Defined.

Lemma growth_scores :
  exists S_ C sols,
    [/\ rat_S_matrix fsm_growth_det = Ok (S_, C, sols),
        calculate_fischer_observable (@euler_odeint rat) fsm_growth_det false =
        Ok (\sum_(j < 2 * 2)
              sensitivity_at (@euler_odeint rat) fsm_growth_det
                (j %% 2) (j %/ 2) ^+ 2,
            fsm_growth_det, S_, np_eye rat (2 * 2) (2 * 2), sols)
      & calculate_fischer_observable (@euler_odeint rat) fsm_growth_det true =
        Ok (\sum_(j < 2 * 2)
              sensitivity_at (@euler_odeint rat) fsm_growth_det
                (j %% 2) (j %/ 2) ^+ 2 /
              (quarter rat *
               predicted (@euler_odeint rat) fsm_growth_det
                 (j %% 2) (j %/ 2)) ^+ 2,
            fsm_growth_det, S_, C, sols)].
Proof.
exact: (@one_parameter_scores rat _ (@euler_odeint_shape rat) fsm_growth_det
          [:: 1; 2%:R] 2 erefl erefl erefl erefl erefl fsm_growth_predicted).
Defined.

(* A model over the algebraic numbers, for the eigenvalue criteria. *)
Definition fsm_algebraic : FischerData algC := growth_model [:: [:: 1]] 1 1 [:: 1].

Definition C_wide : ndarray algC := NdArray [:: 2%N; 2%N] [:: 1; 0; 0; 1].

Lemma one_sample_mismatch :
  [/\ fischer_determinant fsm_algebraic S_one C_wide = Raise ValueError,
      fischer_sumeigenval fsm_algebraic S_one C_wide = Raise ValueError
    & fischer_mineigenval fsm_algebraic S_one C_wide = Raise ValueError].
Proof.
exact: (@criteria_shape_mismatch algC fsm_algebraic S_one C_wide 1 1 2 2
          erefl erefl isT).
Defined.

Lemma one_sample_criteria :
  [/\ fischer_determinant fsm_algebraic S_one C_one =
        Ok (item 0 F_one [:: 0%N; 0%N]),
      fischer_sumeigenval fsm_algebraic S_one C_one =
        Ok (item 0 F_one [:: 0%N; 0%N])
    & fischer_mineigenval fsm_algebraic S_one C_one =
        Ok (item 0 F_one [:: 0%N; 0%N])].
Proof.
exact: (@one_parameter_criteria algC fsm_algebraic S_one C_one F_one
          erefl erefl).
Defined.

Lemma one_sample_nonnegative :
  exists d s m,
    [/\ fischer_determinant fsm_algebraic S_one C_one = Ok d,
        fischer_sumeigenval fsm_algebraic S_one C_one = Ok s,
        fischer_mineigenval fsm_algebraic S_one C_one = Ok m
      & [/\ 0 <= d, 0 <= s & 0 <= m]].
Proof.
apply: (@criteria_nonnegative algC fsm_algebraic S_one C_one 1 1
          erefl erefl isT).
  by rewrite /real_entries /= /item /= realn.
by rewrite /nonneg_diagonal /= /item /= ler01.
Defined.

(* Float fixtures for the figures. *)
Local Close Scope ring_scope.

Module FigureModels.

Import Plotting Figures.

Local Open Scope float_scope.

(* An integrator for dy/dt = 0: every component keeps its initial value. *)
Definition hold_ivp (span : float * float) (y0 t_eval : seq float)
  (args : ivp_args float) : seq float * ndarray float :=
  (t_eval,
   NdArray [:: size y0; size t_eval]
     (flatten [seq nseq (size t_eval) y | y <- y0])).

(* Two states and one parameter, with ode_dfdx0. *)
Definition sol_two_states : FisherResultSingle float :=
  result_single 0 [:: 1; 2] 0 [:: 3].

Definition fsr_two_states : FisherResults float :=
  model (Some (fun t x q p c => x)) (None, None, None) None false 1
    [:: sol_two_states].

Lemma two_states_misshaped :
  plot_all_sensitivities2 0 1 PrimFloat.add PrimFloat.mul PrimFloat.div
    hold_ivp float_linspace float_max fsr_two_states = Raise ValueError.
Proof.
exact: (@initial_value_sensitivities_misshaped float 0 1 PrimFloat.add
          PrimFloat.mul PrimFloat.div hold_ivp float_linspace float_max
          fsr_two_states sol_two_states [::] erefl erefl erefl erefl erefl).
Defined.

(* One state and one parameter, sampled at t = 1: x = 0, dx/dp = 1. *)
Definition sol_sampled : FisherResultSingle float := {|
  ode_x0 := [:: -1];
  ode_t0 := 0;
  times := np_array1 [:: 1];
  parameters := [:: 1];
  inputs := [::];
  ode_args := [::];
  ode_solution := {| sol_t := [:: 1]; sol_y := NdArray [:: 2%N; 1%N] [:: 0; 1] |};
  sensitivities := NdArray [:: 1%N; 1%N; 1%N] [:: 1]
|}.

Definition fsr_sampled (relative : bool) : FisherResults float :=
  model None (None, None, None) None relative 1 [:: sol_sampled].

Lemma sampled_rows :
  plot_all_sensitivities 0 1 PrimFloat.div constant_rate_ivp float_linspace
    float_max (fsr_sampled true) =
  Ok [:: [:: expected_figure 0 1 PrimFloat.div constant_rate_ivp
               float_linspace float_max (fsr_sampled true) sol_sampled
               [:: 0%N; 0%N]]].
Proof.
exact: (@plot_all_sensitivities_rows float 0 1 PrimFloat.div
          constant_rate_ivp float_linspace float_max (fsr_sampled true)
          erefl erefl).
Defined.

Lemma crossing_chain_rule :
  sensitivities2 0 1 PrimFloat.add PrimFloat.mul PrimFloat.div
    constant_rate_ivp float_linspace float_max (fsr_crossing true)
    sol_crossing =
  Ok ((integrate 0 1 constant_rate_ivp float_linspace float_max
         (fsr_crossing true) sol_crossing).1,
      tabulate [:: 1%N; 1%N; 50%N] (fun ix =>
        plotted_entry 0 1 PrimFloat.add PrimFloat.mul PrimFloat.div
          constant_rate_ivp float_linspace float_max
          (fsr_crossing true) sol_crossing
          (fun t x q p c => x) (fun t x q p c => [:: 0])
          (fun t x q p c => [:: 1])
          (nth 0%N ix 0) (nth 0%N ix 1) (nth 0%N ix 2)),
      1%N).
Proof.
exact: (@sensitivities2_chain_rule float 0 1 PrimFloat.add PrimFloat.mul
          PrimFloat.div constant_rate_ivp float_linspace float_max
          (fsr_crossing true) sol_crossing
          (fun t x q p c => x) (fun t x q p c => [:: 0])
          (fun t x q p c => [:: 1])
          erefl erefl erefl erefl erefl isT isT isT
          (fun i _ => erefl) (fun i _ => erefl) (fun i _ => erefl)).
Defined.

End FigureModels.
